(** * mine.c: a parallel proof-of-work search

    A shallow embedding of [mine.c]: the difficulty mask, the text that is
    hashed for a nonce, the acceptance test on the front of the digest, and
    the producer/consumer protocol between [main] and the [mine] threads,
    as a transition system over the shared variables of the program. *)

From Stdlib Require Import ZArith List Lia Bool.
From stdpp Require Import base tactics option list.
Import ListNotations.

Local Open Scope Z_scope.

(** ** Machine integers

    C integers are kept in [Z] with the wrap-around written out. *)

Definition UINT64_MAX : Z := 2 ^ 64 - 1.

Definition uint8 (z : Z) : Z := z mod 2 ^ 8.
Definition uint32 (z : Z) : Z := z mod 2 ^ 32.
Definition uint64 (z : Z) : Z := z mod 2 ^ 64.

(** The value of a 32-bit [int] that holds [z] modulo 2^32. *)
Definition int32 (z : Z) : Z := (z + 2 ^ 31) mod 2 ^ 32 - 2 ^ 31.

(** [a << n] at type [int].  A shift count outside 0..31 has no defined
    result.  A shift into the sign bit ([1 << 31], [digest[0] << 24] with
    a digest byte of 128 or more) gives the two's complement value, which
    is what gcc and clang produce. *)
Definition shl_int (a n : Z) : option Z :=
  if (0 <=? n) && (n <? 32) then Some (int32 (Z.shiftl a n)) else None.

(** ** [get_difficulty] *)

(** The body of [for (i = 0; i < 32 - diff; i++)], run for the [n]
    iterations that are left. *)
Fixpoint get_difficulty_loop (n : nat) (i mask : Z) : option Z :=
  match n with
  | O => Some mask
  | S n' =>
      match shl_int 1 i with
      | Some position =>
          get_difficulty_loop n' (i + 1) (Z.lor mask (uint32 position))
      | None => None
      end
  end.

Definition get_difficulty (diff : Z) : option Z :=
  get_difficulty_loop (Z.to_nat (32 - diff)) 0 0.

(** ** The front of the digest and the test of [mine] *)

Definition digest_byte (digest : list Z) (k : nat) : Z :=
  uint8 (nth k digest 0).

(** [hash_front |= digest[k] << n]: the byte is promoted to [int], shifted,
    and converted to [uint32_t] for the bitwise or. *)
Definition or_shifted (hash_front byte n : Z) : Z :=
  match shl_int byte n with
  | Some v => Z.lor hash_front (uint32 v)
  | None => hash_front
  end.

Definition hash_front (digest : list Z) : Z :=
  let h := 0 in
  let h := or_shifted h (digest_byte digest 0) 24 in
  let h := or_shifted h (digest_byte digest 1) 16 in
  let h := or_shifted h (digest_byte digest 2) 8 in
  Z.lor h (digest_byte digest 3).

(** [(hash_front & difficulty_mask) == hash_front] *)
Definition is_solution (difficulty_mask : Z) (digest : list Z) : bool :=
  Z.land (hash_front digest) difficulty_mask =? hash_front digest.

(** The four leading bytes read as one big-endian number. *)
Definition big_endian32 (b0 b1 b2 b3 : Z) : Z :=
  b0 * 2 ^ 24 + b1 * 2 ^ 16 + b2 * 2 ^ 8 + b3.

(** The first 32 bits of a digest as a big-endian unsigned number. *)
Definition leading_bits (digest : list Z) : Z :=
  big_endian32 (digest_byte digest 0) (digest_byte digest 1)
               (digest_byte digest 2) (digest_byte digest 3).

(** ** C strings

    A buffer is the list of its bytes; the string it holds ends before the
    first NUL. *)

Fixpoint strlen (buf : list Z) : nat :=
  match buf with
  | [] => O
  | b :: rest => if b =? 0 then O else S (strlen rest)
  end.

Definition c_str (buf : list Z) : list Z := take (strlen buf) buf.

(** Writing [bytes] into [buf] from offset [off]; a write past the end of
    the buffer makes the list longer, so that the length of the result
    tells whether the write stayed inside. *)
Definition write_at (buf : list Z) (off : nat) (bytes : list Z) : list Z :=
  take off buf ++ bytes ++ drop (off + length bytes) buf.

Definition strcpy (dst src : list Z) : list Z :=
  write_at dst 0 (c_str src ++ [0]).

Definition strcat (dst src : list Z) : list Z :=
  write_at dst (strlen dst) (c_str src ++ [0]).

(** The digits that [sprintf(buf, "%llu", n)] prints, most significant
    first; [fuel] bounds the number of digits. *)
Fixpoint llu_digits (fuel : nat) (n : Z) (acc : list Z) : list Z :=
  match fuel with
  | O => acc
  | S fuel' =>
      let acc' := (48 + n mod 10) :: acc in
      if n / 10 =? 0 then acc' else llu_digits fuel' (n / 10) acc'
  end.

Definition fmt_llu (n : Z) : list Z := llu_digits 20 (uint64 n) [].

Definition sprintf_llu (buf : list Z) (n : Z) : list Z :=
  write_at buf 0 (fmt_llu n ++ [0]).

Section Input.

(** What storage holds before it is written: the byte at each offset. *)
Variable stale : nat -> Z.

Definition fresh (n : nat) : list Z := map stale (seq 0 n).

(** Lines 245-254 of [mine]: the buffer [tmp_str] as [sha1sum] gets it. *)
Definition tmp_str (bitcoin_block_data : list Z) (nonce : Z) : list Z :=
  let block := bitcoin_block_data ++ [0] in
  let buf := sprintf_llu (fresh 21) nonce in
  let str_size := (strlen buf + strlen block)%nat in
  let tmp := fresh (str_size + 1) in
  let tmp := strcpy tmp block in
  strcat tmp buf.

End Input.

(** The value of a string of decimal digits. *)
Definition decimal_value (ds : list Z) : Z :=
  fold_left (fun v d => 10 * v + (d - 48)) ds 0.

Definition is_digit (d : Z) : Prop := 48 <= d <= 57.

(** Canonical: digits only, at least one, and no leading zero except for
    the number zero itself. *)
Definition canonical_decimal (ds : list Z) : Prop :=
  Forall is_digit ds /\ ds <> [] /\ (hd 0 ds = 48 -> ds = [48]).

(** ** The shared variables and the threads *)

Definition NONCES_PER_TASK : nat := 120.

(** [struct thread_info] without the thread handle; [solution_hash] is the
    [char[41]] buffer. *)
Record thread_info := {
  thread_id : nat;
  num_inversions : Z;
  nonce : Z;
  solution_hash : list Z
}.

(** Storage that [calloc] has cleared. *)
Definition zeroed (n : nat) : list Z := repeat 0 n.

(** [calloc(1, sizeof(struct thread_info))] followed by the assignment of
    [thread_id]. *)
Definition new_thread_info (i : nat) : thread_info :=
  {| thread_id := i; num_inversions := 0; nonce := 0;
     solution_hash := zeroed 41 |}.

(** The test of [print_results]: [strlen(threads[i]->solution_hash) > 0]. *)
Definition has_solution (info : thread_info) : bool :=
  (0 <? strlen (solution_hash info))%nat.

Definition hex_digit (d : Z) : Z := if d <? 10 then 48 + d else 55 + d.

(** Modelled from the spec: [sha1tostring] of [sha1.c], which is not among
    the sources.  It writes the digest as text into the buffer of 41
    characters; the report shows it in hex, and the sample output in the
    header of [mine.c] has 40 upper-case hex digits. *)
Definition sha1tostring (buf digest : list Z) : list Z :=
  write_at buf 0
    (flat_map (fun k => [hex_digit (digest_byte digest k / 16);
                         hex_digit (digest_byte digest k mod 16)])
              (seq 0 20) ++ [0]).

Inductive thread : Type :=
| Main
| Miner (id : nat).

(** Where [main] is, once the threads are created. *)
Inductive main_pc : Type :=
| MLoop                      (* line 103: test of the while loop *)
| MLock (nonces : list Z)    (* line 119: pthread_mutex_lock *)
| MCheck (nonces : list Z)   (* line 120: test of the wait loop, mutex held *)
| MWait (nonces : list Z)    (* line 121: inside pthread_cond_wait *)
| MTest (nonces : list Z)    (* line 123: if (solution_found == true) *)
| MPublish (nonces : list Z) (* lines 128-134 *)
| MBreak                     (* lines 137-146, after the loop *)
| MJoin                      (* lines 151-152 *)
| MDone.                     (* line 154 on *)

(** Where a [mine] thread is. *)
Inductive mine_pc : Type :=
| WLock                      (* line 218: pthread_mutex_lock *)
| WCheck                     (* line 219: test of the wait loop, mutex held *)
| WWait                      (* line 221: inside pthread_cond_wait *)
| WTest                      (* line 224: if (solution_found) *)
| WTake                      (* lines 233-240 *)
| WHash (task_nonces : list Z) (i : nat)  (* line 243: the for loop at i *)
| WReturn                    (* return NULL *)
| WFault.                    (* task_nonces[i] with task_nonces == NULL *)

Record miner := {
  info : thread_info;
  at_pc : mine_pc
}.

Record state := {
  task_pointer : option (list Z);
  solution_found : bool;
  task_mutex : option thread;
  current_nonce : Z;
  main_at : main_pc;
  threads : list miner
}.

(** What a step makes visible. *)
Inductive event : Type :=
| Generated (nonces : list Z)          (* main filled a task *)
| Published (nonces : list Z)          (* task_pointer = nonces *)
| Taken (id : nat) (nonces : list Z)   (* a thread copied the task *)
| Counted (id : nat) (nonces : list Z) (* num_inversions += 120 *)
| Solved (id : nat) (nonce : Z).       (* the test of line 274 held *)

Definition set_task_pointer (v : option (list Z)) (s : state) : state :=
  {| task_pointer := v; solution_found := solution_found s;
     task_mutex := task_mutex s; current_nonce := current_nonce s;
     main_at := main_at s; threads := threads s |}.

Definition set_solution_found (v : bool) (s : state) : state :=
  {| task_pointer := task_pointer s; solution_found := v;
     task_mutex := task_mutex s; current_nonce := current_nonce s;
     main_at := main_at s; threads := threads s |}.

Definition set_task_mutex (v : option thread) (s : state) : state :=
  {| task_pointer := task_pointer s; solution_found := solution_found s;
     task_mutex := v; current_nonce := current_nonce s;
     main_at := main_at s; threads := threads s |}.

Definition set_current_nonce (v : Z) (s : state) : state :=
  {| task_pointer := task_pointer s; solution_found := solution_found s;
     task_mutex := task_mutex s; current_nonce := v;
     main_at := main_at s; threads := threads s |}.

Definition set_main_at (v : main_pc) (s : state) : state :=
  {| task_pointer := task_pointer s; solution_found := solution_found s;
     task_mutex := task_mutex s; current_nonce := current_nonce s;
     main_at := v; threads := threads s |}.

Definition set_miner (id : nat) (m : miner) (s : state) : state :=
  {| task_pointer := task_pointer s; solution_found := solution_found s;
     task_mutex := task_mutex s; current_nonce := current_nonce s;
     main_at := main_at s; threads := <[id := m]> (threads s) |}.

(** The inner loop of [main], lines 107-115: [nonces[i] = current_nonce++]
    for [n] more entries.  The dots printed for progress are left out. *)
Fixpoint fill_nonces (n : nat) (current : Z) : list Z * Z :=
  match n with
  | O => ([], current)
  | S n' =>
      let '(rest, after) := fill_nonces n' (uint64 (current + 1)) in
      (current :: rest, after)
  end.

Definition returned (m : miner) : bool :=
  match at_pc m with WReturn => true | _ => false end.

(** [pthread_mutex_lock] on a mutex that is taken, and a wait that has not
    been woken, leave the thread where it is.  A thread inside
    [pthread_cond_wait] may come back whenever the mutex is free: POSIX
    allows a wait to return without a signal, and both wait loops test
    their condition again. *)
Definition acquire (t : thread) (s : state) : option state :=
  match task_mutex s with
  | None => Some (set_task_mutex (Some t) s)
  | Some _ => None
  end.

Definition step_main (s : state) : state * list event :=
  match main_at s with
  | MLoop =>
      if current_nonce s <? UINT64_MAX then
        let '(nonces, after) := fill_nonces NONCES_PER_TASK (current_nonce s) in
        (set_main_at (MLock nonces) (set_current_nonce after s),
         [Generated nonces])
      else (set_main_at MBreak s, [])
  | MLock nonces | MWait nonces =>
      match acquire Main s with
      | Some s' => (set_main_at (MCheck nonces) s', [])
      | None => (s, [])
      end
  | MCheck nonces =>
      if bool_decide (task_pointer s <> None) && negb (solution_found s)
      then (set_main_at (MWait nonces) (set_task_mutex None s), [])
      else (set_main_at (MTest nonces) s, [])
  | MTest nonces =>
      if solution_found s then (set_main_at MBreak s, [])
      else (set_main_at (MPublish nonces) s, [])
  | MPublish nonces =>
      (set_main_at MLoop
         (set_task_mutex None (set_task_pointer (Some nonces) s)),
       [Published nonces])
  | MBreak =>
      (set_main_at MJoin
         (match task_mutex s with
          | Some Main => set_task_mutex None s
          | _ => s
          end), [])
  | MJoin =>
      if forallb returned (threads s) then (set_main_at MDone s, [])
      else (s, [])
  | MDone => (s, [])
  end.

Section Mine.

Variable sha1sum : list Z -> list Z.
Variable stale : nat -> Z.
Variable bitcoin_block_data : list Z.
Variable difficulty_mask : Z.

(** [sha1sum(digest, tmp_str)] for the text built from a nonce. *)
Definition digest_of (n : Z) : list Z :=
  sha1sum (c_str (tmp_str stale bitcoin_block_data n)).

Definition solves (n : Z) : bool :=
  is_solution difficulty_mask (digest_of n).

Definition at_ (pc : mine_pc) (m : miner) : miner :=
  {| info := info m; at_pc := pc |}.

Definition record_solution (n : Z) (m : miner) : miner :=
  {| info := {| thread_id := thread_id (info m);
                num_inversions := num_inversions (info m);
                nonce := n;
                solution_hash :=
                  sha1tostring (solution_hash (info m)) (digest_of n) |};
     at_pc := WReturn |}.

Definition count_task (m : miner) : miner :=
  {| info := {| thread_id := thread_id (info m);
                num_inversions :=
                  uint64 (num_inversions (info m) + Z.of_nat NONCES_PER_TASK);
                nonce := nonce (info m);
                solution_hash := solution_hash (info m) |};
     at_pc := WLock |}.

Definition step_mine (id : nat) (s : state) : state * list event :=
  match threads s !! id with
  | None => (s, [])
  | Some m =>
      match at_pc m with
      | WLock | WWait =>
          match acquire (Miner id) s with
          | Some s' => (set_miner id (at_ WCheck m) s', [])
          | None => (s, [])
          end
      | WCheck =>
          if bool_decide (task_pointer s = None) && negb (solution_found s)
          then (set_miner id (at_ WWait m) (set_task_mutex None s), [])
          else (set_miner id (at_ WTest m) s, [])
      | WTest =>
          if solution_found s
          then (set_miner id (at_ WReturn m) (set_task_mutex None s), [])
          else (set_miner id (at_ WTake m) s, [])
      | WTake =>
          match task_pointer s with
          | Some task_nonces =>
              (set_miner id (at_ (WHash task_nonces 0) m)
                 (set_task_mutex None (set_task_pointer None s)),
               [Taken id task_nonces])
          | None =>
              (set_miner id (at_ WFault m)
                 (set_task_mutex None (set_task_pointer None s)), [])
          end
      | WHash task_nonces i =>
          if (i <? NONCES_PER_TASK)%nat then
            let n := nth i task_nonces 0 in
            if solves n then
              (set_miner id (record_solution n m)
                 (set_solution_found true s),
               [Solved id n])
            else (set_miner id (at_ (WHash task_nonces (S i)) m) s, [])
          else (set_miner id (count_task m) s, [Counted id task_nonces])
      | WReturn | WFault => (s, [])
      end
  end.

Definition step (t : thread) (s : state) : state * list event :=
  match t with
  | Main => step_main s
  | Miner id => step_mine id s
  end.

(** The state after the threads have run in the order of a schedule, and
    what was visible on the way. *)
Fixpoint exec (sched : list thread) (s : state) : state :=
  match sched with
  | [] => s
  | t :: rest => exec rest (fst (step t s))
  end.

Fixpoint trace (sched : list thread) (s : state) : list event :=
  match sched with
  | [] => []
  | t :: rest => snd (step t s) ++ trace rest (fst (step t s))
  end.

(** Line 86-102: [num_threads] threads have been created, no task is
    staged and no nonce has been handed out. *)
Definition init (num_threads : nat) : state :=
  {| task_pointer := None; solution_found := false; task_mutex := None;
     current_nonce := 0; main_at := MLoop;
     threads :=
       map (fun i => {| info := new_thread_info i; at_pc := WLock |})
           (seq 0 num_threads) |}.

(** The states a run can be in, with the events so far. *)
Inductive reachable (num_threads : nat) : list event -> state -> Prop :=
| reach_init : reachable num_threads [] (init num_threads)
| reach_step tr s t :
    reachable num_threads tr s ->
    reachable num_threads (tr ++ snd (step t s)) (fst (step t s)).

(** The sequential search: the test of [mine] on 0, 1, 2, ... in order,
    for at most [fuel] nonces from [n] on. *)
Fixpoint search_from (fuel : nat) (n : Z) : option Z :=
  match fuel with
  | O => None
  | S fuel' => if solves n then Some n else search_from fuel' (n + 1)
  end.

End Mine.

(** [print_results]: the threads that report a solution, and the total. *)
Definition winners (ts : list miner) : list thread_info :=
  filter (fun i => has_solution i = true) (map info ts).

Definition total_inversions (ts : list miner) : Z :=
  fold_left (fun total m => uint64 (total + num_inversions (info m))) ts 0.

(** ** Reading a trace *)

Definition published (tr : list event) : list (list Z) :=
  flat_map (fun e => match e with Published b => [b] | _ => [] end) tr.

Definition generated (tr : list event) : list (list Z) :=
  flat_map (fun e => match e with Generated b => [b] | _ => [] end) tr.

Definition taken (tr : list event) : list (list Z) :=
  flat_map (fun e => match e with Taken _ b => [b] | _ => [] end) tr.

Definition counted (tr : list event) : list (list Z) :=
  flat_map (fun e => match e with Counted _ b => [b] | _ => [] end) tr.

Definition counted_by (id : nat) (tr : list event) : list (list Z) :=
  flat_map (fun e => match e with
                     | Counted id' b => if decide (id' = id) then [b] else []
                     | _ => []
                     end) tr.

Definition taken_by (id : nat) (tr : list event) : list (list Z) :=
  flat_map (fun e => match e with
                     | Taken id' b => if decide (id' = id) then [b] else []
                     | _ => []
                     end) tr.




(** The k-th task when nonces are handed out in order from 0. *)
Definition nth_task (k : Z) : list Z :=
  map (fun j => uint64 (Z.of_nat NONCES_PER_TASK * k + Z.of_nat j))
      (seq 0 NONCES_PER_TASK).

(** The consecutive numbers [from], [from + 1], ..., [n] of them. *)
Definition consecutive (from : Z) (n : nat) : list Z :=
  map (fun j => from + Z.of_nat j) (seq 0 n).

(** The values of [solution_found] along a run, and how often it goes from
    false to true. *)
Fixpoint flags sha1sum stale block mask (sched : list thread) (s : state)
  : list bool :=
  solution_found s ::
  match sched with
  | [] => []
  | t :: rest =>
      flags sha1sum stale block mask rest
            (fst (step sha1sum stale block mask t s))
  end.

Fixpoint rises (l : list bool) : nat :=
  match l with
  | false :: ((true :: _) as rest) => S (rises rest)
  | _ :: rest => rises rest
  | [] => O
  end.

(** ** What holds in every state of a run *)

Definition sum_with (f : miner -> Z) (ts : list miner) : Z :=
  fold_right (fun m a => f m + a) 0 ts.

(** The sum of the [num_inversions] fields, without wrap-around. *)
Definition sum_inversions (ts : list miner) : Z :=
  sum_with (fun m => num_inversions (info m)) ts.

Definition hashing (m : miner) : Z :=
  match at_pc m with WHash _ _ => 1 | _ => 0 end.

(** The task [main] has filled and not yet stored. *)
Definition pending (pc : main_pc) : option (list Z) :=
  match pc with
  | MLock b | MCheck b | MWait b | MTest b | MPublish b => Some b
  | _ => None
  end.

Definition tasks_upto (g : nat) : list (list Z) :=
  map (fun k => nth_task (Z.of_nat k)) (seq 0 g).

Section Invariant.

Variable sha1sum : list Z -> list Z.
Variable stale : nat -> Z.
Variable block : list Z.
Variable mask : Z.

(** The smallest nonce that passes the test of [mine]. *)
Definition least_solution (n : Z) : Prop :=
  0 <= n /\
  solves sha1sum stale block mask n = true /\
  forall m, 0 <= m < n -> solves sha1sum stale block mask m = false.

Definition rejected (b : list Z) : Prop :=
  Forall (fun c => solves sha1sum stale block mask c = false) b.

Record invariant (n : nat) (tr : list event) (s : state) : Prop := {
  inv_threads : length (threads s) = n;
  inv_nonce :
    current_nonce s =
    uint64 (Z.of_nat NONCES_PER_TASK * Z.of_nat (length (generated tr)));
  inv_generated : generated tr = tasks_upto (length (generated tr));
  inv_main :
    exists rest,
      generated tr = published tr ++ rest /\
      (main_at s = MLoop -> rest = []) /\
      (forall b, pending (main_at s) = Some b -> rest = [b]);
  inv_store :
    forall b,
      main_at s = MPublish b \/
      (main_at s = MTest b /\ solution_found s = false) ->
      task_pointer s = None;
  inv_slot : published tr = taken tr ++ option_list (task_pointer s);
  inv_count :
    forall id m,
      threads s !! id = Some m ->
      num_inversions (info m) =
      uint64 (Z.of_nat NONCES_PER_TASK *
              Z.of_nat (length (counted_by id tr)));
  inv_hash :
    forall id m b i,
      threads s !! id = Some m -> at_pc m = WHash b i ->
      length b = NONCES_PER_TASK /\ (i <= NONCES_PER_TASK)%nat /\
      rejected (take i b);
  inv_counted :
    forall b, b ∈ counted tr -> length b = NONCES_PER_TASK /\ rejected b;
  inv_solution :
    forall id m,
      threads s !! id = Some m ->
      if has_solution (info m) then
        solution_found s = true /\ at_pc m = WReturn /\
        solves sha1sum stale block mask (nonce (info m)) = true /\
        solution_hash (info m) =
          sha1tostring (zeroed 41)
                       (digest_of sha1sum stale block (nonce (info m)))
      else nonce (info m) = 0 /\ solution_hash (info m) = zeroed 41;
  inv_total :
    sum_inversions (threads s) <=
    Z.of_nat NONCES_PER_TASK * Z.of_nat (length (counted tr));
  inv_taken :
    Z.of_nat (length (counted tr)) + sum_with hashing (threads s) <=
    Z.of_nat (length (taken tr))
}.

(** With one [mine] thread the tasks are worked on in the order in which
    they were taken. *)
Record single_invariant (tr : list event) (s : state) : Prop := {
  single_hash :
    forall m b i,
      threads s !! O = Some m -> at_pc m = WHash b i ->
      taken tr = counted tr ++ [b];
  single_idle :
    forall m,
      threads s !! O = Some m -> hashing m = 0 ->
      has_solution (info m) = false ->
      taken tr = counted tr;
  single_least :
    forall m,
      threads s !! O = Some m -> has_solution (info m) = true ->
      least_solution (nonce (info m))
}.

End Invariant.

(** ** Digests for the examples

    [sha1sum] is a parameter of the development.  Examples run it with one
    of two stand-ins, each giving 20 bytes: a checksum whose first byte is
    the sum of the bytes of the text, and a digest of 20 bytes 255. *)

Definition byte_sum_digest (text : list Z) : list Z :=
  uint8 (fold_right Z.add 0 text) :: repeat 0 19.

Definition ones_digest (text : list Z) : list Z := repeat 255 20.

(** Storage that held 170 in every byte before it was written. *)
Definition stale_aa (offset : nat) : Z := 170.

(** The number of the first task in which [current_nonce] wraps. *)
Definition WRAPPING_TASK : Z := 153722867280912930.

(** ** Runs with one thread

    A state with one [mine] thread, and the schedule in which [main]
    stages a task, the thread takes it and goes through it, one after
    the other. *)

Definition single_state (slot : option (list Z)) (found : bool)
    (mutex : option thread) (c : Z) (pc : main_pc) (m : miner) : state :=
  {| task_pointer := slot; solution_found := found; task_mutex := mutex;
     current_nonce := c; main_at := pc; threads := [m] |}.

Definition idle_miner (inversions : Z) : miner :=
  {| info := {| thread_id := O; num_inversions := inversions; nonce := 0;
                solution_hash := zeroed 41 |};
     at_pc := WLock |}.

(** The state after [k] tasks without a match. *)
Definition after_rounds (k : nat) : state :=
  single_state None false None (uint64 (120 * Z.of_nat k)) MLoop
               (idle_miner (uint64 (120 * Z.of_nat k))).

(** [main]: fill, lock, test of the wait loop, test of the flag, store. *)
Definition stage_sched : list thread := repeat Main 5.

(** The thread: lock, test of the wait loop, test of the flag, copy. *)
Definition take_sched : list thread := repeat (Miner O) 4.

(** The thread: 120 nonces and the end of the for loop. *)
Definition work_sched : list thread := repeat (Miner O) 121.

Definition round_sched : list thread :=
  stage_sched ++ take_sched ++ work_sched.

Fixpoint rounds_sched (k : nat) : list thread :=
  match k with
  | O => []
  | S k' => rounds_sched k' ++ round_sched
  end.

(** [k] whole tasks without a match, then the task with the match at
    index [i]; [main] fills one more task, sees the flag, leaves the loop
    and joins. *)
Definition solving_sched (k i : nat) : list thread :=
  rounds_sched k ++ stage_sched ++ take_sched ++ repeat (Miner O) (S i)
  ++ repeat Main 6.

(** ** Runs for the examples *)

(** "Hello" *)
Definition hello : list Z := [72; 101; 108; 108; 111].

(** The mask of difficulty 0. *)
Definition mask_all : Z := 2 ^ 32 - 1.

(** [main] stages the task 0..119 and thread 0 takes it; [main] stages
    the task 120..239 and thread 1 takes it; thread 0 tests nonce 0. *)
Definition first_solver_sched : list thread :=
  stage_sched ++ take_sched ++ stage_sched ++ repeat (Miner 1%nat) 4 ++
  [Miner O].




(** ** [print_binary32] *)

(** The body of [for (i = 31; i >= 0; --i)] for the [n] iterations that
    are left, [i] being [n - 1]: the characters that are printed. *)
Fixpoint print_binary32_loop (n : nat) (num : Z) : option (list Z) :=
  match n with
  | O => Some []
  | S i =>
      match shl_int 1 (Z.of_nat i) with
      | Some shifted =>
          let position := uint32 shifted in
          let c := if Z.land num position =? position then 49 else 48 in
          match print_binary32_loop i num with
          | Some rest => Some (c :: rest)
          | None => None
          end
      | None => None
      end
  end.

(** The argument is converted to [uint32_t] at the call. *)
Definition print_binary32 (num : Z) : option (list Z) :=
  print_binary32_loop 32 (uint32 num).

(** The number that a string of the characters 0 and 1 denotes. *)
Definition binary_value (cs : list Z) : Z :=
  fold_left (fun v c => 2 * v + (c - 48)) cs 0.

(** The character for a bit. *)
Definition bit_char (b : bool) : Z := if b then 49 else 48.

(** ** The progress display *)

(** The inner loop of lines 107-115 once more, for what it prints: the
    number of dots while [n] more nonces are handed out from [current]. *)
Fixpoint fill_dots (n : nat) (current : Z) : Z :=
  match n with
  | O => 0
  | S n' =>
      let next := uint64 (current + 1) in
      (if next mod 1000000 =? 0 then 1 else 0) + fill_dots n' next
  end.

(** The dots printed while the first [g] tasks are filled. *)
Fixpoint dots_upto (g : nat) : Z :=
  match g with
  | O => 0
  | S g' =>
      dots_upto g' +
      fill_dots NONCES_PER_TASK
                (uint64 (Z.of_nat NONCES_PER_TASK * Z.of_nat g'))
  end.

(** ** The start of [main] *)

(** What lines 67-98 of [main] come to: the usage message, the error for
    empty block data, a shift that C leaves undefined inside
    [get_difficulty], or the threads started with a mask. *)
Inductive main_start_result : Type :=
| Usage
| EmptyBlockData
| UndefinedShift
| Started (num_threads : nat) (difficulty_mask : Z).

(** [argc], the values of [atoi(argv[1])] and [atoi(argv[2])], and the
    buffer of [argv[3]].  The mask is computed before the block data is
    looked at. *)
Definition main_start (argc threads_arg difficulty_arg : Z)
    (argv3 : list Z) : main_start_result :=
  if negb (argc =? 4) then Usage
  else
    match get_difficulty difficulty_arg with
    | None => UndefinedShift
    | Some difficulty_mask =>
        match c_str argv3 with
        | [] => EmptyBlockData
        | _ :: _ =>
            Started (if threads_arg <? 1 then 5%nat else Z.to_nat threads_arg)
                    difficulty_mask
        end
    end.

(** ** Who holds the mutex *)

(** [main] is between its lock and its unlock. *)
Definition main_holds (pc : main_pc) : bool :=
  match pc with
  | MCheck _ | MTest _ | MPublish _ | MBreak => true
  | _ => false
  end.

(** A [mine] thread is between its lock and its unlock. *)
Definition mine_holds (pc : mine_pc) : bool :=
  match pc with
  | WCheck | WTest | WTake => true
  | _ => false
  end.

Definition held_by_main (mutex : option thread) : bool :=
  match mutex with Some Main => true | _ => false end.

Definition held_by_miner (id : nat) (mutex : option thread) : bool :=
  match mutex with Some (Miner id') => (id' =? id)%nat | _ => false end.

Definition main_past_loop (pc : main_pc) : bool :=
  match pc with
  | MBreak | MJoin | MDone => true
  | _ => false
  end.

Definition solved (m : miner) : Z :=
  if has_solution (info m) then 1 else 0.

Record discipline (tr : list event) (s : state) : Prop := {
  dis_main : main_holds (main_at s) = held_by_main (task_mutex s);
  dis_mine :
    forall id m,
      threads s !! id = Some m ->
      mine_holds (at_pc m) = held_by_miner id (task_mutex s);
  dis_owner :
    forall id,
      task_mutex s = Some (Miner id) -> (id < length (threads s))%nat;
  dis_take :
    forall id m,
      threads s !! id = Some m ->
      at_pc m = WTake \/ (at_pc m = WTest /\ solution_found s = false) ->
      task_pointer s <> None;
  dis_fault : forall id m, threads s !! id = Some m -> at_pc m <> WFault;
  dis_break : main_past_loop (main_at s) = true -> solution_found s = true;
  dis_id : forall id m, threads s !! id = Some m -> thread_id (info m) = id;
  dis_found :
    solution_found s = true ->
    exists id m, threads s !! id = Some m /\ has_solution (info m) = true;
  dis_joined :
    main_at s = MDone ->
    forall id m, threads s !! id = Some m -> at_pc m = WReturn;
  dis_account :
    Z.of_nat (length (taken tr)) =
    Z.of_nat (length (counted tr)) + sum_with hashing (threads s)
    + sum_with solved (threads s)
}.

(** Where the work of a thread comes from: out of the slot. *)
Record provenance (tr : list event) (s : state) : Prop := {
  prov_task :
    forall id m b i,
      threads s !! id = Some m -> at_pc m = WHash b i -> b ∈ taken_by id tr;
  prov_counted : forall id b, b ∈ counted_by id tr -> b ∈ taken_by id tr;
  prov_nonce :
    forall id m,
      threads s !! id = Some m -> has_solution (info m) = true ->
      exists b, b ∈ taken_by id tr /\ nonce (info m) ∈ b;
  prov_total :
    uint64 (sum_inversions (threads s)) =
    uint64 (Z.of_nat NONCES_PER_TASK * Z.of_nat (length (counted tr)))
}.

(** * Properties *)

(** ** Machine integers *)

Lemma uint32_int32 z : uint32 (int32 z) = uint32 z.
Proof.
  unfold uint32, int32.
  rewrite Zminus_mod_idemp_l. f_equal. lia.
Qed.

Lemma uint32_small z : 0 <= z < 2 ^ 32 -> uint32 z = z.
Proof. intros H. unfold uint32. apply Z.mod_small. exact H. Qed.

Lemma uint64_small z : 0 <= z < 2 ^ 64 -> uint64 z = z.
Proof. intros H. unfold uint64. apply Z.mod_small. exact H. Qed.

Lemma uint64_range z : 0 <= uint64 z < 2 ^ 64.
Proof. unfold uint64. apply Z.mod_pos_bound. lia. Qed.

Lemma uint64_le z : 0 <= z -> uint64 z <= z.
Proof. intros H. unfold uint64. apply Z.mod_le; lia. Qed.

Lemma uint8_range z : 0 <= uint8 z < 2 ^ 8.
Proof. unfold uint8. apply Z.mod_pos_bound. lia. Qed.

Lemma shl_int_in_range a n :
  0 <= n < 32 -> shl_int a n = Some (int32 (a * 2 ^ n)).
Proof.
  intros H. unfold shl_int.
  replace ((0 <=? n) && (n <? 32)) with true.
  - rewrite Z.shiftl_mul_pow2 by lia. reflexivity.
  - symmetry. apply andb_true_iff. split; [apply Z.leb_le | apply Z.ltb_lt]; lia.
Qed.

(** Bits that do not overlap add up. *)
Lemma lor_disjoint hi lo k :
  0 <= k -> 0 <= lo < 2 ^ k -> Z.lor (hi * 2 ^ k) lo = hi * 2 ^ k + lo.
Proof.
  intros Hk Hlo.
  rewrite <- (Z.add_lor_land (hi * 2 ^ k) lo).
  assert (Z.land (hi * 2 ^ k) lo = 0) as ->; [|lia].
  apply Z.bits_inj'. intros n Hn.
  rewrite Z.land_spec, Z.bits_0.
  destruct (Z.lt_ge_cases n k) as [Hlt | Hge].
  - rewrite Z.mul_pow2_bits_low by lia. reflexivity.
  - rewrite <- (Z.mod_small lo (2 ^ k)) by lia.
    rewrite Z.mod_pow2_bits_high by lia. apply andb_false_r.
Qed.

(** ** [get_difficulty] *)

Lemma get_difficulty_loop_ones n i :
  0 <= i -> i + Z.of_nat n <= 32 ->
  get_difficulty_loop n i (2 ^ i - 1) = Some (2 ^ (i + Z.of_nat n) - 1).
Proof.
  revert i. induction n as [|n IH]; intros i Hi Hn; simpl get_difficulty_loop.
  - replace (i + Z.of_nat 0) with i by lia. reflexivity.
  - rewrite shl_int_in_range by lia.
    rewrite uint32_int32, uint32_small.
    2:{ split; [lia|]. rewrite Z.mul_1_l. apply Z.pow_lt_mono_r; lia. }
    rewrite Z.mul_1_l, Z.lor_comm.
    replace (2 ^ i) with (1 * 2 ^ i) at 1 by lia.
    rewrite lor_disjoint by lia.
    replace (1 * 2 ^ i + (2 ^ i - 1)) with (2 ^ (i + 1) - 1).
    2:{ rewrite Z.pow_add_r by lia. lia. }
    rewrite IH by lia.
    replace (i + 1 + Z.of_nat n) with (i + Z.of_nat (S n)) by lia.
    reflexivity.
Qed.

Lemma get_difficulty_in_range d :
  0 <= d <= 32 -> get_difficulty d = Some (2 ^ (32 - d) - 1).
Proof.
  intros Hd. unfold get_difficulty.
  change 0 with (2 ^ 0 - 1) at 2.
  rewrite get_difficulty_loop_ones by lia.
  replace (0 + Z.of_nat (Z.to_nat (32 - d))) with (32 - d) by lia.
  reflexivity.
Qed.

(** C2.  For a difficulty [d] from 0 to 32, [get_difficulty] returns
    2^(32-d) - 1, a 32-bit value whose low 32-d bits are 1 and whose high
    d bits are 0. *)
Theorem get_difficulty_mask (d : Z) :
  0 <= d <= 32 ->
  exists mask,
    get_difficulty d = Some mask /\
    mask = 2 ^ (32 - d) - 1 /\
    0 <= mask < 2 ^ 32 /\
    (forall j, 0 <= j < 32 - d -> Z.testbit mask j = true) /\
    (forall j, 32 - d <= j < 32 -> Z.testbit mask j = false).
Proof.
  intros Hd. exists (2 ^ (32 - d) - 1).
  split; [apply get_difficulty_in_range; exact Hd|].
  split; [reflexivity|].
  assert (2 ^ (32 - d) - 1 = Z.ones (32 - d)) as Hones.
  { rewrite Z.ones_equiv. lia. }
  split.
  - assert (0 < 2 ^ (32 - d)) by (apply Z.pow_pos_nonneg; lia).
    assert (2 ^ (32 - d) <= 2 ^ 32) by (apply Z.pow_le_mono_r; lia).
    lia.
  - rewrite Hones. split; intros j Hj.
    + apply Z.ones_spec_low. lia.
    + apply Z.ones_spec_high. lia.
Qed.

(** Difficulty 24, the mask of the sample run. *)
Lemma get_difficulty_mask_witness :
  exists mask,
    get_difficulty 24 = Some mask /\
    mask = 2 ^ (32 - 24) - 1 /\
    0 <= mask < 2 ^ 32 /\
    (forall j, 0 <= j < 32 - 24 -> Z.testbit mask j = true) /\
    (forall j, 32 - 24 <= j < 32 -> Z.testbit mask j = false).
Proof. apply (get_difficulty_mask 24). lia. Defined.

(** C10.  A difficulty of 32 or more gives the mask 0, as difficulty 32
    does: the loop body is never entered and nothing fails. *)
Theorem get_difficulty_high (d : Z) :
  32 <= d ->
  get_difficulty d = Some 0 /\ get_difficulty d = get_difficulty 32.
Proof.
  intros Hd. unfold get_difficulty.
  replace (Z.to_nat (32 - d)) with O by lia.
  split; reflexivity.
Qed.

(** A difficulty far above 32. *)
Lemma get_difficulty_high_witness :
  get_difficulty 1000 = Some 0 /\ get_difficulty 1000 = get_difficulty 32.
Proof. apply (get_difficulty_high 1000). lia. Defined.

(** ** The front of the digest *)

Lemma or_shifted_byte h b n :
  0 <= n < 32 -> 0 <= b * 2 ^ n < 2 ^ 32 ->
  or_shifted h b n = Z.lor h (b * 2 ^ n).
Proof.
  intros Hn Hb. unfold or_shifted.
  rewrite shl_int_in_range by exact Hn.
  rewrite uint32_int32, uint32_small by exact Hb. reflexivity.
Qed.

Lemma hash_front_big_endian digest : hash_front digest = leading_bits digest.
Proof.
  unfold hash_front, leading_bits, big_endian32.
  pose proof (uint8_range (nth 0 digest 0)) as H0.
  pose proof (uint8_range (nth 1 digest 0)) as H1.
  pose proof (uint8_range (nth 2 digest 0)) as H2.
  pose proof (uint8_range (nth 3 digest 0)) as H3.
  unfold digest_byte.
  set (b0 := uint8 (nth 0 digest 0)) in *.
  set (b1 := uint8 (nth 1 digest 0)) in *.
  set (b2 := uint8 (nth 2 digest 0)) in *.
  set (b3 := uint8 (nth 3 digest 0)) in *.
  rewrite !or_shifted_byte by lia.
  rewrite Z.lor_0_l.
  replace (b0 * 2 ^ 24) with (b0 * 2 ^ 8 * 2 ^ 16) at 1 by lia.
  replace (b1 * 2 ^ 16) with (0 + b1 * 2 ^ 16) at 1 by lia.
  rewrite <- (lor_disjoint 0 (b1 * 2 ^ 16) 24) at 1 by lia.
  rewrite Z.mul_0_l, Z.lor_0_l.
  replace (b0 * 2 ^ 8 * 2 ^ 16) with (b0 * 2 ^ 24) by lia.
  rewrite (lor_disjoint b0 (b1 * 2 ^ 16) 24) by lia.
  replace (b0 * 2 ^ 24 + b1 * 2 ^ 16) with ((b0 * 2 ^ 8 + b1) * 2 ^ 16) by lia.
  rewrite (lor_disjoint _ (b2 * 2 ^ 8) 16) by lia.
  replace ((b0 * 2 ^ 8 + b1) * 2 ^ 16 + b2 * 2 ^ 8)
    with ((b0 * 2 ^ 16 + b1 * 2 ^ 8 + b2) * 2 ^ 8) by lia.
  rewrite (lor_disjoint _ b3 8) by lia.
  lia.
Qed.


(** ** C strings *)

Lemma strlen_app_nul (s rest : list Z) :
  Forall (fun b => b <> 0) s -> strlen (s ++ 0 :: rest) = length s.
Proof.
  induction 1 as [|b s Hb _ IH]; simpl; [reflexivity|].
  destruct (Z.eqb_spec b 0); [contradiction|]. rewrite IH. reflexivity.
Qed.

Lemma c_str_app_nul (s rest : list Z) :
  Forall (fun b => b <> 0) s -> c_str (s ++ 0 :: rest) = s.
Proof.
  intros H. unfold c_str. rewrite strlen_app_nul by exact H.
  apply take_app_length.
Qed.

Lemma write_at_start (buf bytes : list Z) :
  write_at buf 0 bytes = bytes ++ drop (length bytes) buf.
Proof. reflexivity. Qed.

Lemma length_write_at (buf : list Z) off bytes :
  (off + length bytes <= length buf)%nat ->
  length (write_at buf off bytes) = length buf.
Proof.
  intros H. unfold write_at.
  rewrite !length_app, length_take, length_drop. lia.
Qed.

(** ** The digits of a nonce *)

Lemma fold_left_digits_snoc ds d :
  decimal_value (ds ++ [d]) = 10 * decimal_value ds + (d - 48).
Proof. unfold decimal_value. rewrite fold_left_app. reflexivity. Qed.

Lemma llu_digits_spec fuel : forall n acc,
  0 <= n < 10 ^ Z.of_nat (S fuel) ->
  exists ds,
    llu_digits (S fuel) n acc = ds ++ acc /\
    Forall is_digit ds /\ ds <> [] /\
    (hd 0 ds = 48 -> n = 0 /\ ds = [48]) /\
    decimal_value ds = n /\
    (length ds <= S fuel)%nat.
Proof.
  induction fuel as [|fuel IH]; intros n acc Hn.
  - exists [48 + n mod 10].
    assert (n / 10 = 0) as Hq by (apply Z.div_small; lia).
    assert (n mod 10 = n) as Hr by (apply Z.mod_small; lia).
    simpl llu_digits. rewrite Hq. simpl.
    split_and!.
    + reflexivity.
    + repeat constructor; unfold is_digit; lia.
    + discriminate.
    + intros Hx. split; [lia|f_equal; lia].
    + unfold decimal_value. simpl. lia.
    + lia.
  - assert (0 <= n mod 10 < 10) as Hr by (apply Z.mod_pos_bound; lia).
    pose proof (Z.div_mod n 10 ltac:(lia)) as Hdm.
    change (llu_digits (S (S fuel)) n acc)
      with (if n / 10 =? 0 then (48 + n mod 10) :: acc
            else llu_digits (S fuel) (n / 10) ((48 + n mod 10) :: acc)).
    destruct (Z.eqb_spec (n / 10) 0) as [Hq | Hq].
    + exists [48 + n mod 10]. simpl.
      split_and!.
      * reflexivity.
      * repeat constructor; unfold is_digit; lia.
      * discriminate.
      * intros Hx. split; [lia|f_equal; lia].
      * unfold decimal_value. simpl. lia.
      * lia.
    + destruct (IH (n / 10) ((48 + n mod 10) :: acc)) as
        (ds & Heq & Hdig & Hne & Hhd & Hval & Hlen).
      { split; [apply Z.div_pos; lia|].
        apply Z.div_lt_upper_bound; [lia|].
        replace (Z.of_nat (S (S fuel))) with (1 + Z.of_nat (S fuel)) in Hn by lia.
        rewrite Z.pow_add_r in Hn by lia. lia. }
      exists (ds ++ [48 + n mod 10]).
      split_and!.
      * rewrite Heq, <- app_assoc. reflexivity.
      * apply Forall_app. split; [exact Hdig|].
        repeat constructor; unfold is_digit; lia.
      * intros Hx. apply app_eq_nil in Hx. destruct Hx as [_ Hx]. discriminate.
      * destruct ds as [|d ds]; [contradiction|].
        simpl in *. intros Hx. destruct (Hhd Hx) as [Hx0 _]. contradiction.
      * rewrite fold_left_digits_snoc, Hval. lia.
      * rewrite length_app. simpl. lia.
Qed.

Lemma fmt_llu_spec n :
  exists ds,
    fmt_llu n = ds /\ Forall is_digit ds /\ ds <> [] /\
    (hd 0 ds = 48 -> ds = [48]) /\
    decimal_value ds = uint64 n /\ (length ds <= 20)%nat.
Proof.
  pose proof (uint64_range n) as Hr.
  destruct (llu_digits_spec 19 (uint64 n) []) as
    (ds & Heq & Hdig & Hne & Hhd & Hval & Hlen).
  { split; [lia|]. eapply Z.lt_trans; [apply Hr|]. reflexivity. }
  exists ds. rewrite app_nil_r in Heq.
  split_and!; try assumption.
  intros H. apply Hhd. exact H.
Qed.

Lemma digits_not_nul ds : Forall is_digit ds -> Forall (fun b => b <> 0) ds.
Proof.
  intros H. eapply Forall_impl; [exact H|].
  unfold is_digit. intros d Hd. lia.
Qed.

Lemma length_fresh stale n : length (fresh stale n) = n.
Proof. unfold fresh. rewrite length_map, length_seq. reflexivity. Qed.

Lemma sprintf_llu_buf stale n :
  exists rest,
    sprintf_llu (fresh stale 21) n = fmt_llu n ++ 0 :: rest /\
    length (sprintf_llu (fresh stale 21) n) = 21%nat.
Proof.
  destruct (fmt_llu_spec n) as (ds & Heq & _ & _ & _ & _ & Hlen).
  unfold sprintf_llu. rewrite write_at_start, Heq.
  exists (drop (length (ds ++ [0])) (fresh stale 21)).
  split; [rewrite <- app_assoc; reflexivity|].
  rewrite <- write_at_start. apply length_write_at.
  rewrite length_app, length_fresh. simpl. lia.
Qed.

Lemma tmp_str_spec stale block n :
  Forall (fun b => b <> 0) block ->
  exists rest,
    tmp_str stale block n = (block ++ fmt_llu n) ++ 0 :: rest /\
    length (tmp_str stale block n) =
      (length (fmt_llu n) + length block + 1)%nat.
Proof.
  intros Hblock.
  destruct (fmt_llu_spec n) as (ds & Heq & Hdig & _ & _ & _ & _).
  apply digits_not_nul in Hdig.
  destruct (sprintf_llu_buf stale n) as (rest & Hbuf & _).
  unfold tmp_str. rewrite Hbuf, Heq.
  rewrite !strlen_app_nul by assumption.
  set (size := (length ds + length block + 1)%nat).
  assert (strcpy (fresh stale size) (block ++ [0]) =
          block ++ 0 :: drop (length block + 1) (fresh stale size)) as Hcpy.
  { unfold strcpy. rewrite c_str_app_nul by assumption.
    rewrite write_at_start, length_app, <- app_assoc. reflexivity. }
  rewrite Hcpy. unfold strcat.
  rewrite strlen_app_nul, c_str_app_nul by assumption.
  unfold write_at. rewrite take_app_length.
  eexists. split.
  - rewrite <- !app_assoc. reflexivity.
  - rewrite !length_app, length_drop, length_app. simpl.
    rewrite length_drop, length_fresh. unfold size. lia.
Qed.

(** C3.  The text that [mine] hands to [sha1sum] for a nonce is the block
    data followed by the nonce in canonical decimal, byte for byte: the
    digits have the value of the nonce, there is at least one, and none
    leads with a zero unless the nonce is 0.  The text ends where
    [tmp_str] has its NUL, inside the [strlen(buf) + strlen(block) + 1]
    bytes that were allocated. *)
Theorem hashed_text sha1sum stale (block : list Z) mask (n : Z) :
  Forall (fun b => b <> 0) block ->
  0 <= n < 2 ^ 64 ->
  c_str (tmp_str stale block n) = block ++ fmt_llu n /\
  canonical_decimal (fmt_llu n) /\
  decimal_value (fmt_llu n) = n /\
  length (tmp_str stale block n) = (length (block ++ fmt_llu n) + 1)%nat /\
  digest_of sha1sum stale block n = sha1sum (block ++ fmt_llu n) /\
  solves sha1sum stale block mask n =
    is_solution mask (sha1sum (block ++ fmt_llu n)).
Proof.
  intros Hblock Hn.
  destruct (fmt_llu_spec n) as (ds & Heq & Hdig & Hne & Hhd & Hval & _).
  destruct (tmp_str_spec stale block n Hblock) as (rest & Htmp & Hlen).
  assert (c_str (tmp_str stale block n) = block ++ fmt_llu n) as Hstr.
  { rewrite Htmp. apply c_str_app_nul.
    apply Forall_app. split; [exact Hblock|].
    rewrite Heq. apply digits_not_nul. exact Hdig. }
  split_and!.
  - exact Hstr.
  - rewrite Heq. unfold canonical_decimal. split_and!; assumption.
  - rewrite Heq, Hval. apply uint64_small. exact Hn.
  - rewrite Hlen, length_app. lia.
  - unfold digest_of. rewrite Hstr. reflexivity.
  - unfold solves, digest_of. rewrite Hstr. reflexivity.
Qed.

(** ** Steps of the protocol *)

Arguments uint64 : simpl never.
Arguments fill_nonces : simpl never.
Arguments sha1tostring : simpl never.
Arguments zeroed : simpl never.

(** Case analysis on the step a thread takes. *)
Ltac break_match :=
  repeat match goal with
    | |- context [match ?x with _ => _ end] => destruct x eqn:?
    | H : context [match ?x with _ => _ end] |- _ => destruct x eqn:?
    end.

Ltac unfold_step := unfold step, step_main, step_mine, acquire in *.

Ltac unfold_rejected := unfold rejected in *.

Ltac rewrite_pc :=
  repeat match goal with
    | H : at_pc ?m = _ |- context [at_pc ?m] => rewrite H
    end.

Ltac rewrite_known :=
  repeat match goal with
    | H : main_at ?s = _ |- context [main_at ?s] => rewrite H
    | H : task_pointer ?s = _ |- context [task_pointer ?s] => rewrite H
    | H : solution_found ?s = _ |- context [solution_found ?s] => rewrite H
    | H : task_mutex ?s = _ |- context [task_mutex ?s] => rewrite H
    end.

Ltac step_cases :=
  unfold step, step_main, step_mine, acquire;
  break_match; simplify_eq; simpl; rewrite_known.

Section Protocol.

Variable sha1sum : list Z -> list Z.
Variable stale : nat -> Z.
Variable block : list Z.
Variable mask : Z.

Local Abbreviation step := (step sha1sum stale block mask).
Local Abbreviation exec := (exec sha1sum stale block mask).
Local Abbreviation trace := (trace sha1sum stale block mask).
Local Abbreviation flags := (flags sha1sum stale block mask).
Local Abbreviation reachable := (reachable sha1sum stale block mask).
Local Abbreviation solves := (solves sha1sum stale block mask).
Local Abbreviation digest_of := (digest_of sha1sum stale block).

Lemma exec_app sched1 sched2 s :
  exec (sched1 ++ sched2) s = exec sched2 (exec sched1 s).
Proof. revert s. induction sched1 as [|t r IH]; intros s; simpl; auto. Qed.

Lemma trace_app sched1 sched2 s :
  trace (sched1 ++ sched2) s = trace sched1 s ++ trace sched2 (exec sched1 s).
Proof.
  revert s. induction sched1 as [|t r IH]; intros s; simpl; [reflexivity|].
  rewrite IH, app_assoc. reflexivity.
Qed.

Lemma reachable_exec n sched :
  reachable n (trace sched (init n)) (exec sched (init n)).
Proof.
  induction sched as [|t r IH] using rev_ind.
  - constructor.
  - rewrite trace_app, exec_app. simpl. rewrite app_nil_r.
    apply reach_step. exact IH.
Qed.

Lemma reachable_run n tr s sched :
  reachable n tr s -> reachable n (tr ++ trace sched s) (exec sched s).
Proof.
  revert tr s. induction sched as [|t r IH]; intros tr s H; simpl.
  - rewrite app_nil_r. exact H.
  - rewrite app_assoc. apply IH. apply reach_step. exact H.
Qed.

(** *** The flag *)

Lemma step_solution_found t s :
  solution_found (fst (step t s)) = solution_found s \/
  solution_found (fst (step t s)) = true.
Proof. destruct t; step_cases; auto. Qed.

Lemma step_keeps_flag t s :
  solution_found s = true -> solution_found (fst (step t s)) = true.
Proof.
  intros H. destruct (step_solution_found t s) as [Heq | Heq]; congruence.
Qed.


Lemma flags_set sched s :
  solution_found s = true -> flags sched s = repeat true (S (length sched)).
Proof.
  revert s. induction sched as [|t r IH]; intros s H; simpl; rewrite H.
  - reflexivity.
  - f_equal. apply IH, step_keeps_flag, H.
Qed.

Lemma flags_shape sched s :
  exists a b, flags sched s = repeat false a ++ repeat true b.
Proof.
  revert s. induction sched as [|t r IH]; intros s.
  - simpl. destruct (solution_found s).
    + exists O, 1%nat. reflexivity.
    + exists 1%nat, O. reflexivity.
  - destruct (solution_found s) eqn:Hs.
    + exists O, (S (length (t :: r))). apply flags_set, Hs.
    + destruct (IH (fst (step t s))) as (a & b & Hab).
      exists (S a), b. simpl. rewrite Hs. simpl. f_equal. exact Hab.
Qed.

Lemma rises_shape a b : (rises (repeat false a ++ repeat true b) <= 1)%nat.
Proof.
  induction a as [|a IH].
  - simpl. induction b as [|b IHb]; simpl; [lia|].
    destruct b; simpl in *; lia.
  - change (repeat false (S a) ++ repeat true b)
      with (false :: (repeat false a ++ repeat true b)).
    destruct a as [|a].
    + destruct b as [|b]; simpl; [lia|].
      clear IH. induction b as [|b IHb]; simpl in *; [lia|].
      destruct b; simpl in *; lia.
    + simpl in *. exact IH.
Qed.

(** C8.  [solution_found] starts false and a step either leaves it or
    makes it true; along every run its values are a stretch of false
    followed by a stretch of true, so it goes from false to true at most
    once and never back. *)
Theorem solution_found_once n sched :
  solution_found (init n) = false /\
  (forall t s,
     solution_found (fst (step t s)) = solution_found s \/
     solution_found (fst (step t s)) = true) /\
  (exists a b, flags sched (init n) = repeat false (S a) ++ repeat true b) /\
  (rises (flags sched (init n)) <= 1)%nat.
Proof.
  split_and!.
  - reflexivity.
  - intros t s. apply step_solution_found.
  - destruct (flags_shape sched (init n)) as (a & b & Hab).
    destruct a as [|a]; [|exists a, b; exact Hab].
    exfalso. destruct sched, b; simpl in Hab; discriminate.
  - destruct (flags_shape sched (init n)) as (a & b & Hab).
    rewrite Hab. apply rises_shape.
Qed.

(** *** The slot once the flag is set *)

Lemma published_app tr1 tr2 :
  published (tr1 ++ tr2) = published tr1 ++ published tr2.
Proof. unfold published. apply flat_map_app. Qed.

Lemma taken_by_app id tr1 tr2 :
  taken_by id (tr1 ++ tr2) = taken_by id tr1 ++ taken_by id tr2.
Proof. unfold taken_by. apply flat_map_app. Qed.





(** What is still stored and taken once the flag is set. *)






End Protocol.

(** ** Reading a trace *)

Lemma generated_app tr1 tr2 :
  generated (tr1 ++ tr2) = generated tr1 ++ generated tr2.
Proof. unfold generated. apply flat_map_app. Qed.

Lemma taken_app tr1 tr2 : taken (tr1 ++ tr2) = taken tr1 ++ taken tr2.
Proof. unfold taken. apply flat_map_app. Qed.

Lemma counted_app tr1 tr2 : counted (tr1 ++ tr2) = counted tr1 ++ counted tr2.
Proof. unfold counted. apply flat_map_app. Qed.

Lemma counted_by_app id tr1 tr2 :
  counted_by id (tr1 ++ tr2) = counted_by id tr1 ++ counted_by id tr2.
Proof. unfold counted_by. apply flat_map_app. Qed.

Create Rewrite HintDb events.
#[local] Hint Rewrite generated_app published_app taken_app counted_app
  counted_by_app @app_nil_r : events.

(** ** The tasks that [main] fills *)

Lemma uint64_idem z : uint64 (uint64 z) = uint64 z.
Proof. unfold uint64. apply Z.mod_mod. lia. Qed.

Lemma uint64_add_l a b : uint64 (uint64 a + b) = uint64 (a + b).
Proof. unfold uint64. apply Zplus_mod_idemp_l. Qed.

Lemma fill_nonces_spec n : forall c,
  fill_nonces n (uint64 c) =
  (map (fun j => uint64 (c + Z.of_nat j)) (seq 0 n), uint64 (c + Z.of_nat n)).
Proof.
  induction n as [|n IH]; intros c.
  - unfold fill_nonces. simpl. rewrite Z.add_0_r. reflexivity.
  - unfold fill_nonces; fold fill_nonces.
    rewrite uint64_add_l, IH. simpl. f_equal.
    + f_equal; [rewrite Z.add_0_r; reflexivity|].
      rewrite <- seq_shift, map_map. apply map_ext. intros j. f_equal. lia.
    + f_equal. lia.
Qed.

Lemma fill_nonces_task g :
  fill_nonces NONCES_PER_TASK (uint64 (Z.of_nat NONCES_PER_TASK * Z.of_nat g)) =
  (nth_task (Z.of_nat g),
   uint64 (Z.of_nat NONCES_PER_TASK * Z.of_nat (S g))).
Proof.
  rewrite fill_nonces_spec. unfold nth_task. f_equal. f_equal. lia.
Qed.

Lemma tasks_upto_S g :
  tasks_upto (S g) = tasks_upto g ++ [nth_task (Z.of_nat g)].
Proof. unfold tasks_upto. rewrite seq_S, map_app. reflexivity. Qed.

Lemma length_tasks_upto g : length (tasks_upto g) = g.
Proof. unfold tasks_upto. rewrite length_map, length_seq. reflexivity. Qed.

Lemma length_nth_task k : length (nth_task k) = NONCES_PER_TASK.
Proof. unfold nth_task. rewrite length_map, length_seq. reflexivity. Qed.

Lemma tasks_upto_prefix g l1 l2 :
  tasks_upto g = l1 ++ l2 -> l1 = tasks_upto (length l1).
Proof.
  intros H.
  assert (length l1 <= g)%nat as Hle.
  { rewrite <- (length_tasks_upto g), H, length_app. lia. }
  transitivity (take (length l1) (tasks_upto g)).
  - rewrite H, take_app_length. reflexivity.
  - unfold tasks_upto. rewrite <- fmap_take, take_seq.
    rewrite Nat.min_l by exact Hle. reflexivity.
Qed.

Lemma tasks_upto_elem g b : b ∈ tasks_upto g -> length b = NONCES_PER_TASK.
Proof.
  unfold tasks_upto. intros H. apply list_elem_of_fmap in H.
  destruct H as (k & -> & _). apply length_nth_task.
Qed.

Section Invariants.

Variable sha1sum : list Z -> list Z.
Variable stale : nat -> Z.
Variable block : list Z.
Variable mask : Z.

Local Abbreviation step := (step sha1sum stale block mask).
Local Abbreviation exec := (exec sha1sum stale block mask).
Local Abbreviation trace := (trace sha1sum stale block mask).
Local Abbreviation reachable := (reachable sha1sum stale block mask).
Local Abbreviation solves := (solves sha1sum stale block mask).
Local Abbreviation digest_of := (digest_of sha1sum stale block).
Local Abbreviation invariant := (invariant sha1sum stale block mask).
Local Abbreviation rejected := (rejected sha1sum stale block mask).

Ltac use_invariant H :=
  destruct H as [Ithreads Inonce Igenerated Imain Istore Islot Icount Ihash
                   Icounted Isolution Itotal Itaken].

Lemma step_threads_length t s :
  length (threads (fst (step t s))) = length (threads s).
Proof. destruct t; step_cases; rewrite ?length_insert; reflexivity. Qed.

Lemma step_nonce n tr s t :
  invariant n tr s ->
  current_nonce (fst (step t s)) =
    uint64 (Z.of_nat NONCES_PER_TASK *
            Z.of_nat (length (generated (tr ++ snd (step t s))))) /\
  generated (tr ++ snd (step t s)) =
    tasks_upto (length (generated (tr ++ snd (step t s)))).
Proof.
  intros H. use_invariant H.
  destruct t; step_cases; autorewrite with events; auto.
  rewrite Inonce, fill_nonces_task in *. simplify_eq.
  simpl. rewrite length_app. simpl.
  replace (length (generated tr) + 1)%nat with (S (length (generated tr)))
    by lia.
  split; [reflexivity|].
  rewrite tasks_upto_S, <- Igenerated. reflexivity.
Qed.

Lemma step_main_inv n tr s t :
  invariant n tr s ->
  exists rest,
    generated (tr ++ snd (step t s)) = published (tr ++ snd (step t s)) ++ rest /\
    (main_at (fst (step t s)) = MLoop -> rest = []) /\
    (forall b, pending (main_at (fst (step t s))) = Some b -> rest = [b]).
Proof.
  intros H. use_invariant H.
  destruct Imain as (rest & Hgen & Hloop & Hpend).
  destruct t; step_cases; autorewrite with events; simpl in *;
    try (exists rest; split_and!;
         solve [auto | congruence | intros; simplify_eq; auto]).
  - exists [l]. rewrite Hloop, app_nil_r in Hgen by reflexivity.
    rewrite Hgen. split_and!; [reflexivity|discriminate|congruence].
  - exists []. rewrite (Hpend nonces) in Hgen by reflexivity.
    rewrite app_nil_r. split_and!; [assumption|reflexivity|discriminate].
Qed.

Lemma step_store n tr s t :
  invariant n tr s ->
  forall b,
    main_at (fst (step t s)) = MPublish b \/
    (main_at (fst (step t s)) = MTest b /\
     solution_found (fst (step t s)) = false) ->
    task_pointer (fst (step t s)) = None.
Proof.
  intros H. use_invariant H. intros b.
  destruct t; step_cases; intros Hb; try reflexivity;
    try (apply (Istore b); rewrite_known; intuition congruence);
    try (intuition congruence).
  destruct Hb as [Hb | [_ Hb]]; [discriminate|].
  rewrite Hb, andb_true_r in *.
  apply bool_decide_eq_false in Heqb0.
  destruct (task_pointer s); [exfalso; apply Heqb0; discriminate|reflexivity].
Qed.

Lemma step_slot n tr s t :
  invariant n tr s ->
  published (tr ++ snd (step t s)) =
  taken (tr ++ snd (step t s)) ++ option_list (task_pointer (fst (step t s))).
Proof.
  intros H. use_invariant H.
  destruct t; step_cases; autorewrite with events; simpl; auto.
  - rewrite Islot, (Istore nonces) by auto. simpl.
    rewrite app_nil_r. reflexivity.
  - rewrite Islot. rewrite_known. simpl. apply app_nil_r.
Qed.

(** *** The threads *)

Lemma lookup_set_miner (ts : list miner) id m' id' x :
  <[id := m']> ts !! id' = Some x ->
  (id' = id /\ x = m') \/ (id' <> id /\ ts !! id' = Some x).
Proof.
  intros H. destruct (decide (id = id')) as [->|Hne].
  - left. split; [reflexivity|].
    rewrite list_lookup_insert_eq in H by (eapply lookup_lt_Some in H;
      rewrite length_insert in H; exact H).
    congruence.
  - right. rewrite list_lookup_insert_ne in H by exact Hne. auto.
Qed.

Lemma uint64_count c :
  uint64 (uint64 (Z.of_nat NONCES_PER_TASK * Z.of_nat c) +
          Z.of_nat NONCES_PER_TASK) =
  uint64 (Z.of_nat NONCES_PER_TASK * Z.of_nat (c + 1)).
Proof. rewrite uint64_add_l. f_equal. lia. Qed.

Lemma step_count n tr s t :
  invariant n tr s ->
  forall id m,
    threads (fst (step t s)) !! id = Some m ->
    num_inversions (info m) =
    uint64 (Z.of_nat NONCES_PER_TASK *
            Z.of_nat (length (counted_by id (tr ++ snd (step t s))))).
Proof.
  intros H. use_invariant H. intros id' m'.
  destruct t; step_cases; autorewrite with events; simpl; auto;
    intros Hm'; apply lookup_set_miner in Hm';
    destruct Hm' as [[-> ->] | [Hne Hm']]; simpl;
    rewrite ?decide_True by reflexivity;
    rewrite ?decide_False by congruence;
    autorewrite with events; eauto.
  rewrite (Icount id m) by assumption.
  rewrite length_app. apply uint64_count.
Qed.

Lemma take_S_nth (b : list Z) i :
  (i < length b)%nat -> take (S i) b = take i b ++ [nth i b 0].
Proof.
  intros Hi. destruct (lookup_lt_is_Some_2 b i Hi) as [x Hx].
  rewrite (take_S_r b i x Hx), (nth_lookup_Some b i 0 x Hx). reflexivity.
Qed.

Lemma slot_task_length n tr s b :
  invariant n tr s -> task_pointer s = Some b -> length b = NONCES_PER_TASK.
Proof.
  intros H Hb. use_invariant H.
  destruct Imain as (rest & Hgen & _).
  apply (tasks_upto_elem (length (generated tr))).
  rewrite <- Igenerated, Hgen, Islot, Hb. simpl.
  rewrite !elem_of_app, list_elem_of_singleton. auto.
Qed.

Lemma step_hash n tr s t :
  invariant n tr s ->
  forall id m b i,
    threads (fst (step t s)) !! id = Some m -> at_pc m = WHash b i ->
    length b = NONCES_PER_TASK /\ (i <= NONCES_PER_TASK)%nat /\
    rejected (take i b).
Proof.
  intros H. pose proof (fun b => slot_task_length n tr s b H) as Hslot.
  use_invariant H. intros id' m' b' i'.
  destruct t; step_cases; eauto;
    intros Hm'; apply lookup_set_miner in Hm';
    destruct Hm' as [[-> ->] | [Hne Hm']]; simpl; eauto; try discriminate;
    intros Hpc; injection Hpc as <- <-.
  - split_and!; [auto|lia|constructor].
  - destruct (Ihash id m task_nonces i) as (Hlen & Hi & Hrej); auto.
    apply Nat.ltb_lt in Heqb.
    split_and!; [assumption|lia|].
    rewrite take_S_nth by lia.
    apply Forall_app. split; [exact Hrej|]. constructor; [|constructor].
    assumption.
Qed.

Lemma step_counted n tr s t :
  invariant n tr s ->
  forall b,
    b ∈ counted (tr ++ snd (step t s)) ->
    length b = NONCES_PER_TASK /\ rejected b.
Proof.
  intros H. use_invariant H. intros b'.
  destruct t; step_cases; autorewrite with events; simpl; auto.
  rewrite elem_of_app, list_elem_of_singleton. intros [Hb | ->]; [auto|].
  destruct (Ihash id m task_nonces i) as (Hlen & Hi & Hrej); auto.
  apply Nat.ltb_ge in Heqb.
  split; [assumption|]. rewrite take_ge in Hrej by lia. exact Hrej.
Qed.



Lemma hex_digit_nonzero d : 0 <= d -> hex_digit d <> 0.
Proof. intros H. unfold hex_digit. destruct (d <? 10); lia. Qed.

Lemma has_solution_sha1tostring buf digest i n v :
  has_solution {| thread_id := i; num_inversions := v; nonce := n;
                  solution_hash := sha1tostring buf digest |} = true.
Proof.
  unfold has_solution, sha1tostring, write_at. simpl.
  destruct (Z.eqb_spec (hex_digit (digest_byte digest 0 / 16)) 0) as [H|H];
    [|reflexivity].
  exfalso. revert H. apply hex_digit_nonzero.
  pose proof (uint8_range (nth 0 digest 0)). unfold digest_byte.
  apply Z.div_pos; lia.
Qed.

Lemma step_solution n tr s t :
  invariant n tr s ->
  forall id m,
    threads (fst (step t s)) !! id = Some m ->
    if has_solution (info m) then
      solution_found (fst (step t s)) = true /\ at_pc m = WReturn /\
      solves (nonce (info m)) = true /\
      solution_hash (info m) =
        sha1tostring (zeroed 41) (digest_of (nonce (info m)))
    else nonce (info m) = 0 /\ solution_hash (info m) = zeroed 41.
Proof.
  intros H. use_invariant H.
  destruct t as [|id0].
  - step_cases; intros id' m' Hm'; specialize (Isolution _ _ Hm');
      destruct (has_solution (info m')); intuition congruence.
  - destruct (threads s !! id0) as [m|] eqn:Hm.
    2:{ unfold_step. rewrite Hm. apply Isolution. }
    destruct (returned m) eqn:Hret.
    { unfold returned in Hret. unfold_step. rewrite Hm.
      destruct (at_pc m); try discriminate. apply Isolution. }
    assert (has_solution (info m) = false /\
            nonce (info m) = 0 /\ solution_hash (info m) = zeroed 41)
      as (Hno & Hnonce & Hhash).
    { specialize (Isolution _ _ Hm). unfold returned in Hret.
      destruct (has_solution (info m)); [|tauto].
      destruct Isolution as (_ & Hpc & _). rewrite Hpc in Hret.
      discriminate. }
    step_cases; try apply Isolution;
      intros id' m' Hm'; apply lookup_set_miner in Hm';
      destruct Hm' as [[-> ->] | [Hne Hm']];
      try (specialize (Isolution _ _ Hm');
           destruct (has_solution (info m')); intuition congruence);
      try (unfold has_solution in *; simpl; rewrite Hno; auto; fail).
    unfold record_solution. cbn [info at_pc nonce solution_hash].
    rewrite has_solution_sha1tostring, Hhash. auto.
Qed.

(** *** Sums over the threads *)

Lemma sum_with_insert f (ts : list miner) id m m' :
  ts !! id = Some m ->
  sum_with f (<[id := m']> ts) = sum_with f ts - f m + f m'.
Proof.
  revert id. induction ts as [|x ts IH]; intros [|id] Hm; simpl in *;
    try discriminate.
  - injection Hm as ->. lia.
  - rewrite (IH id Hm). lia.
Qed.

Lemma step_total n tr s t :
  invariant n tr s ->
  sum_inversions (threads (fst (step t s))) <=
  Z.of_nat NONCES_PER_TASK *
  Z.of_nat (length (counted (tr ++ snd (step t s)))).
Proof.
  intros H. use_invariant H. unfold sum_inversions in *.
  destruct t; step_cases; autorewrite with events; simpl; auto;
    erewrite sum_with_insert by eassumption; simpl; try lia.
  rewrite length_app. simpl.
  pose proof (Icount _ _ Heqo) as Hc.
  pose proof (uint64_range (Z.of_nat NONCES_PER_TASK *
                            Z.of_nat (length (counted_by id tr)))) as Hr.
  pose proof (uint64_le (num_inversions (info m) + Z.of_nat NONCES_PER_TASK))
    as Hle.
  rewrite <- Hc in Hr. change (Z.of_nat NONCES_PER_TASK) with 120 in *. lia.
Qed.

Lemma step_taken n tr s t :
  invariant n tr s ->
  Z.of_nat (length (counted (tr ++ snd (step t s)))) +
  sum_with hashing (threads (fst (step t s))) <=
  Z.of_nat (length (taken (tr ++ snd (step t s)))).
Proof.
  intros H. use_invariant H.
  destruct t; step_cases; autorewrite with events; simpl; auto;
    erewrite sum_with_insert by eassumption;
    unfold hashing in *; simpl; rewrite_known;
    rewrite ?length_app; simpl;
    repeat match goal with
      | H : at_pc ?m = _ |- context [at_pc ?m] => rewrite H
      end; lia.
Qed.

Lemma invariant_step n tr s t :
  invariant n tr s ->
  invariant n (tr ++ snd (step t s)) (fst (step t s)).
Proof.
  intros H. split.
  - rewrite step_threads_length. apply H.
  - apply (step_nonce n tr s t H).
  - apply (step_nonce n tr s t H).
  - apply (step_main_inv n tr s t H).
  - apply (step_store n tr s t H).
  - apply (step_slot n tr s t H).
  - apply (step_count n tr s t H).
  - apply (step_hash n tr s t H).
  - apply (step_counted n tr s t H).
  - apply (step_solution n tr s t H).
  - apply (step_total n tr s t H).
  - apply (step_taken n tr s t H).
Qed.

Lemma lookup_init n id m :
  threads (init n) !! id = Some m ->
  m = {| info := new_thread_info id; at_pc := WLock |}.
Proof.
  unfold init. simpl. intros H.
  apply list_lookup_fmap_Some in H. destruct H as (i & -> & Hi).
  apply lookup_seq in Hi. destruct Hi as [-> _]. reflexivity.
Qed.

Lemma sum_with_zero f (ts : list miner) :
  (forall id m, ts !! id = Some m -> f m = 0) -> sum_with f ts = 0.
Proof.
  induction ts as [|x ts IH]; intros H; simpl; [reflexivity|].
  rewrite (H O x eq_refl), IH; [reflexivity|].
  intros id m Hm. apply (H (S id) m Hm).
Qed.

Lemma invariant_init n : invariant n [] (init n).
Proof.
  split; simpl; try reflexivity.
  - rewrite length_map, length_seq. reflexivity.
  - exists []. split_and!; [reflexivity|reflexivity|discriminate].
  - intros id m Hm. apply lookup_init in Hm. subst m. reflexivity.
  - intros id m b i Hm Hpc. apply lookup_init in Hm. subst m. discriminate.
  - intros b Hb. inversion Hb.
  - intros id m Hm. apply lookup_init in Hm. subst m. simpl. auto.
  - unfold sum_inversions. rewrite sum_with_zero; [lia|].
    intros id m Hm. apply lookup_init in Hm. subst m. reflexivity.
  - rewrite sum_with_zero; [lia|].
    intros id m Hm. apply lookup_init in Hm. subst m. reflexivity.
Qed.

Lemma reachable_invariant n tr s : reachable n tr s -> invariant n tr s.
Proof.
  induction 1 as [|tr s t _ IH]; [apply invariant_init|].
  apply invariant_step, IH.
Qed.


End Invariants.

Section Runs.

Variable sha1sum : list Z -> list Z.
Variable stale : nat -> Z.
Variable block : list Z.
Variable mask : Z.

Local Abbreviation step := (step sha1sum stale block mask).
Local Abbreviation exec := (exec sha1sum stale block mask).
Local Abbreviation trace := (trace sha1sum stale block mask).
Local Abbreviation reachable := (reachable sha1sum stale block mask).
Local Abbreviation solves := (solves sha1sum stale block mask).
Local Abbreviation digest_of := (digest_of sha1sum stale block).
Local Abbreviation invariant := (invariant sha1sum stale block mask).
Local Abbreviation rejected := (rejected sha1sum stale block mask).

Lemma run_invariant n sched :
  invariant n (trace sched (init n)) (exec sched (init n)).
Proof. apply reachable_invariant, reachable_exec. Qed.

(** *** The tasks that are published *)

Lemma published_prefix n tr s :
  invariant n tr s -> published tr = tasks_upto (length (published tr)).
Proof.
  intros H. destruct (inv_main _ _ _ _ _ _ _ H) as (rest & Hgen & _).
  eapply tasks_upto_prefix. rewrite <- Hgen. symmetry.
  apply (inv_generated _ _ _ _ _ _ _ H).
Qed.

Lemma lookup_tasks_upto g k b :
  tasks_upto g !! k = Some b -> b = nth_task (Z.of_nat k).
Proof.
  unfold tasks_upto. intros H.
  apply list_lookup_fmap_Some in H. destruct H as (i & -> & Hi).
  apply lookup_seq in Hi. destruct Hi as [-> _]. reflexivity.
Qed.

Lemma nth_task_consecutive k :
  0 <= k -> Z.of_nat NONCES_PER_TASK * k + 119 < 2 ^ 64 ->
  nth_task k = consecutive (Z.of_nat NONCES_PER_TASK * k) NONCES_PER_TASK.
Proof.
  intros Hk Hmax. unfold nth_task, consecutive.
  apply map_ext_in. intros j Hj. apply in_seq in Hj.
  apply uint64_small. change (Z.of_nat NONCES_PER_TASK) with 120 in *.
  change NONCES_PER_TASK with 120%nat in Hj. lia.
Qed.

Lemma consecutive_app from a b :
  consecutive from a ++ consecutive (from + Z.of_nat a) b =
  consecutive from (a + b).
Proof.
  unfold consecutive. rewrite seq_app, map_app. f_equal.
  rewrite Nat.add_0_l, <- (Nat.add_0_r a) at 1.
  rewrite <- (fmap_add_seq a 0 b), <- list_fmap_compose.
  apply map_ext. intros j. simpl. lia.
Qed.

Lemma concat_tasks_upto g :
  Z.of_nat NONCES_PER_TASK * Z.of_nat g <= 2 ^ 64 ->
  concat (tasks_upto g) = consecutive 0 (NONCES_PER_TASK * g).
Proof.
  induction g as [|g IH]; intros Hg.
  - rewrite Nat.mul_0_r. reflexivity.
  - rewrite tasks_upto_S, concat_app, IH by lia.
    change (concat [nth_task (Z.of_nat g)]) with (nth_task (Z.of_nat g) ++ []).
    rewrite app_nil_r, nth_task_consecutive.
    + replace (NONCES_PER_TASK * S g)%nat
        with (NONCES_PER_TASK * g + NONCES_PER_TASK)%nat by lia.
      rewrite <- consecutive_app. do 2 f_equal. lia.
    + lia.
    + change (Z.of_nat NONCES_PER_TASK) with 120 in *. lia.
Qed.

(** C5, as the code has it.  In every run the tasks are published in the
    order in which nonces are handed out from 0: the k-th published task
    is the k-th task.  Below task number 153722867280912930, where the
    64-bit [current_nonce] first wraps, the k-th task holds exactly the
    120 nonces 120k .. 120k+119, and the first p published tasks together
    are 0 .. 120p-1 with no gap and no repeat. *)
Theorem published_tasks_in_order n sched :
  published (trace sched (init n)) =
    tasks_upto (length (published (trace sched (init n)))) /\
  (forall k b,
     published (trace sched (init n)) !! k = Some b ->
     Z.of_nat k < WRAPPING_TASK ->
     length b = NONCES_PER_TASK /\
     b = consecutive (120 * Z.of_nat k) 120) /\
  (Z.of_nat (length (published (trace sched (init n)))) <= WRAPPING_TASK ->
   concat (published (trace sched (init n))) =
   consecutive 0 (120 * length (published (trace sched (init n))))).
Proof.
  pose proof (published_prefix n _ _ (run_invariant n sched)) as Hpub.
  split_and!.
  - exact Hpub.
  - intros k b Hb Hk. rewrite Hpub in Hb.
    apply lookup_tasks_upto in Hb. subst b.
    split; [apply length_nth_task|].
    apply nth_task_consecutive; unfold WRAPPING_TASK in Hk;
      change (Z.of_nat NONCES_PER_TASK) with 120; lia.
  - intros Hp. rewrite Hpub at 1. apply concat_tasks_upto.
    unfold WRAPPING_TASK in Hp. change (Z.of_nat NONCES_PER_TASK) with 120.
    lia.
Qed.

(** *** The count of inversions *)

Lemma total_inversions_le (ts : list miner) : forall a,
  0 <= a ->
  (forall id m, ts !! id = Some m -> 0 <= num_inversions (info m)) ->
  fold_left (fun total m => uint64 (total + num_inversions (info m))) ts a
  <= a + sum_inversions ts.
Proof.
  unfold sum_inversions.
  induction ts as [|x ts IH]; intros a Ha Hpos; simpl; [lia|].
  pose proof (Hpos O x eq_refl) as Hx.
  pose proof (uint64_range (a + num_inversions (info x))) as Hr.
  pose proof (uint64_le (a + num_inversions (info x))) as Hle.
  etransitivity; [apply IH|]; [lia| |lia].
  intros id m Hm. apply (Hpos (S id) m Hm).
Qed.

Lemma step_num_inversions t s id m m' :
  threads s !! id = Some m ->
  threads (fst (step t s)) !! id = Some m' ->
  num_inversions (info m') <> num_inversions (info m) ->
  exists b i,
    t = Miner id /\ at_pc m = WHash b i /\ (NONCES_PER_TASK <= i)%nat /\
    snd (step t s) = [Counted id b] /\
    num_inversions (info m') =
      uint64 (num_inversions (info m) + Z.of_nat NONCES_PER_TASK).
Proof.
  intros Hm Hm' Hne.
  destruct t as [|id0].
  - exfalso. apply Hne. f_equal. f_equal.
    assert (threads (fst (step Main s)) = threads s) as Heq
        by (step_cases; reflexivity).
    rewrite Heq in Hm'. congruence.
  - revert Hm' Hne. step_cases; intros Hm' Hne;
      try (exfalso; apply Hne; congruence);
      apply lookup_set_miner in Hm';
      destruct Hm' as [[-> ->] | [Hne' Hm']];
      try (exfalso; apply Hne; simplify_eq; reflexivity).
    simplify_eq. exists task_nonces, i. apply Nat.ltb_ge in Heqb.
    split_and!; auto.
Qed.

(** C9.  [num_inversions] changes only when a thread has gone through a
    whole task without a match, and then by 120; so a thread's count is
    120 for each task it finished, every task that was counted has 120
    nonces of which none passes the test, a nonce that a thread reports
    is in none of them, and the total that [print_results] adds up is at
    most the sum of the counts, which is at most the number of nonces
    that [main] has generated. *)
Theorem inversions_counted n sched :
  (forall t s id m m',
     threads s !! id = Some m ->
     threads (fst (step t s)) !! id = Some m' ->
     num_inversions (info m') <> num_inversions (info m) ->
     exists b i,
       t = Miner id /\ at_pc m = WHash b i /\ (NONCES_PER_TASK <= i)%nat /\
       snd (step t s) = [Counted id b] /\
       num_inversions (info m') =
         uint64 (num_inversions (info m) + Z.of_nat NONCES_PER_TASK)) /\
  (forall id m,
     threads (exec sched (init n)) !! id = Some m ->
     num_inversions (info m) =
     uint64 (120 * Z.of_nat (length (counted_by id (trace sched (init n)))))) /\
  (forall b,
     b ∈ counted (trace sched (init n)) ->
     length b = NONCES_PER_TASK /\ rejected b /\
     forall id m,
       threads (exec sched (init n)) !! id = Some m ->
       has_solution (info m) = true -> nonce (info m) ∉ b) /\
  total_inversions (threads (exec sched (init n))) <=
    sum_inversions (threads (exec sched (init n))) /\
  sum_inversions (threads (exec sched (init n))) <=
    Z.of_nat (length (concat (generated (trace sched (init n))))).
Proof.
  pose proof (run_invariant n sched) as H.
  set (tr := trace sched (init n)) in *.
  set (s := exec sched (init n)) in *.
  destruct H as [Ithreads Inonce Igenerated Imain Istore Islot Icount Ihash
                   Icounted Isolution Itotal Itaken].
  split_and!.
  - apply step_num_inversions.
  - exact Icount.
  - intros b Hb. destruct (Icounted b Hb) as [Hlen Hrej].
    split_and!; [assumption..|].
    intros id m Hm Hsol Hin.
    specialize (Isolution id m Hm). rewrite Hsol in Isolution.
    destruct Isolution as (_ & _ & Hsolves & _).
    unfold_rejected. rewrite Forall_forall in Hrej.
    specialize (Hrej _ Hin). simpl in Hrej. congruence.
  - assert (forall id m, threads s !! id = Some m ->
                         0 <= num_inversions (info m)) as Hpos.
    { intros id m Hm. rewrite (Icount id m Hm). apply uint64_range. }
    pose proof (total_inversions_le (threads s) 0 ltac:(lia) Hpos) as Htot.
    unfold total_inversions. lia.
  - assert (0 <= sum_with hashing (threads s)) as Hhash.
    { clear. induction (threads s) as [|x ts IH]; simpl; [lia|].
      unfold hashing at 1. destruct (at_pc x); lia. }
    destruct Imain as (rest & Hgen & _).
    assert (length (concat (generated tr)) =
            (NONCES_PER_TASK * length (generated tr))%nat) as Hcat.
    { rewrite Igenerated at 1. generalize (length (generated tr)).
      intros g. induction g as [|g IH]; [reflexivity|].
      rewrite tasks_upto_S, concat_app, length_app, IH.
      change (concat [nth_task (Z.of_nat g)])
        with (nth_task (Z.of_nat g) ++ []).
      rewrite app_nil_r, length_nth_task. lia. }
    rewrite Hcat.
    apply (f_equal (@length _)) in Hgen, Islot.
    rewrite length_app in Hgen, Islot.
    change (Z.of_nat NONCES_PER_TASK) with 120 in *.
    change NONCES_PER_TASK with 120%nat. lia.
Qed.

End Runs.

Lemma solves_uint64 sha1sum stale block mask n :
  solves sha1sum stale block mask (uint64 n) =
  solves sha1sum stale block mask n.
Proof.
  unfold solves, digest_of, tmp_str, sprintf_llu, fmt_llu.
  rewrite uint64_idem. reflexivity.
Qed.

Section Single.

Variable sha1sum : list Z -> list Z.
Variable stale : nat -> Z.
Variable block : list Z.
Variable mask : Z.

Local Abbreviation step := (step sha1sum stale block mask).
Local Abbreviation exec := (exec sha1sum stale block mask).
Local Abbreviation trace := (trace sha1sum stale block mask).
Local Abbreviation reachable := (reachable sha1sum stale block mask).
Local Abbreviation solves := (solves sha1sum stale block mask).
Local Abbreviation digest_of := (digest_of sha1sum stale block).
Local Abbreviation invariant := (invariant sha1sum stale block mask).
Local Abbreviation rejected := (rejected sha1sum stale block mask).
Local Abbreviation least_solution := (least_solution sha1sum stale block mask).
Local Abbreviation single_invariant :=
  (single_invariant sha1sum stale block mask).
Local Abbreviation search_from := (search_from sha1sum stale block mask).

(** C1, as the code has it.  A thread whose nonce passes the test sets
    [solution_found] whatever its value was, writes the nonce and the
    digest into its own record and returns.  So in every run a record
    that carries a solution belongs to a thread that has returned, holds
    a nonce that passes the test with the text of its digest, and
    [solution_found] is set. *)
Theorem solutions_recorded n sched :
  (forall s id m b i,
     threads s !! id = Some m -> at_pc m = WHash b i ->
     (i < NONCES_PER_TASK)%nat -> solves (nth i b 0) = true ->
     fst (step (Miner id) s) =
       set_miner id (record_solution sha1sum stale block (nth i b 0) m)
                 (set_solution_found true s) /\
     has_solution
       (info (record_solution sha1sum stale block (nth i b 0) m)) = true) /\
  (forall id m,
     threads (exec sched (init n)) !! id = Some m ->
     has_solution (info m) = true ->
     solution_found (exec sched (init n)) = true /\
     at_pc m = WReturn /\
     solves (nonce (info m)) = true /\
     solution_hash (info m) =
       sha1tostring (zeroed 41) (digest_of (nonce (info m)))).
Proof.
  split.
  - intros s id m b i Hm Hpc Hi Hsolves. split.
    + unfold_step. rewrite Hm, Hpc.
      apply Nat.ltb_lt in Hi. rewrite Hi, Hsolves. reflexivity.
    + apply has_solution_sha1tostring.
  - intros id m Hm Hsol.
    pose proof (inv_solution _ _ _ _ _ _ _ (run_invariant _ _ _ _ n sched)
                  id m Hm) as H.
    rewrite Hsol in H. exact H.
Qed.

(** *** One thread *)

Lemma lookup_nth_task k (r : nat) :
  (r < NONCES_PER_TASK)%nat ->
  nth_task k !! r = Some (uint64 (Z.of_nat NONCES_PER_TASK * k + Z.of_nat r)).
Proof.
  intros Hr. unfold nth_task. rewrite list_lookup_fmap.
  rewrite lookup_seq_lt by exact Hr. reflexivity.
Qed.

Lemma least_in_tasks (k i : nat) :
  (forall b, b ∈ tasks_upto k -> rejected b) ->
  rejected (take i (nth_task (Z.of_nat k))) ->
  (i < NONCES_PER_TASK)%nat ->
  solves (nth i (nth_task (Z.of_nat k)) 0) = true ->
  least_solution (nth i (nth_task (Z.of_nat k)) 0).
Proof.
  intros Hdone Hpart Hi Hsolves.
  rewrite (nth_lookup_Some _ _ _ _ (lookup_nth_task (Z.of_nat k) i Hi)) in *.
  set (M := Z.of_nat NONCES_PER_TASK * Z.of_nat k + Z.of_nat i) in *.
  assert (forall m, 0 <= m < M -> solves (uint64 m) = false) as Hbelow.
  { intros m Hm.
    assert (0 <= m mod 120 < 120) as Hr by (apply Z.mod_pos_bound; lia).
    pose proof (Z.div_mod m 120 ltac:(lia)) as Hdm.
    assert (0 <= m / 120) as Hq by (apply Z.div_pos; lia).
    assert (lookup_nth : nth_task (m / 120) !! Z.to_nat (m mod 120) =
                         Some (uint64 m)).
    { rewrite lookup_nth_task by (change NONCES_PER_TASK with 120%nat; lia).
      do 2 f_equal. change (Z.of_nat NONCES_PER_TASK) with 120. lia. }
    subst M. change (Z.of_nat NONCES_PER_TASK) with 120 in *.
    change NONCES_PER_TASK with 120%nat in Hi.
    destruct (Z.lt_ge_cases (m / 120) (Z.of_nat k)) as [Hlt | Hge].
    - assert (rejected (nth_task (m / 120))) as Hrej.
      { apply Hdone. unfold tasks_upto. apply list_elem_of_fmap.
        exists (Z.to_nat (m / 120)). split; [f_equal; lia|].
        apply elem_of_seq. lia. }
      unfold_rejected. rewrite Forall_lookup in Hrej.
      apply (Hrej _ _ lookup_nth).
    - assert (m / 120 = Z.of_nat k) as Hk by lia.
      rewrite Hk in lookup_nth.
      unfold_rejected. rewrite Forall_lookup in Hpart.
      apply (Hpart (Z.to_nat (m mod 120))).
      rewrite lookup_take_lt by lia. exact lookup_nth. }
  assert (M < 2 ^ 64) as Hmax.
  { destruct (Z.lt_ge_cases M (2 ^ 64)) as [Hlt | Hge]; [exact Hlt|].
    exfalso. pose proof (uint64_range M) as Hr.
    specialize (Hbelow (uint64 M) ltac:(lia)).
    rewrite uint64_idem in Hbelow. congruence. }
  assert (0 <= M) as Hpos by (subst M; lia).
  rewrite uint64_small in * by lia.
  split_and!; [exact Hpos|exact Hsolves|].
  intros m Hm. rewrite <- (uint64_small m) by lia. apply Hbelow. exact Hm.
Qed.

Lemma solved_task_least tr s m b i :
  invariant 1 tr s ->
  threads s !! O = Some m -> at_pc m = WHash b i ->
  taken tr = counted tr ++ [b] ->
  (i < NONCES_PER_TASK)%nat -> solves (nth i b 0) = true ->
  least_solution (nth i b 0).
Proof.
  intros Hinv Hm Hpc Htaken Hi Hsolves.
  destruct Hinv as [Ithreads Inonce Igenerated Imain Istore Islot Icount Ihash
                      Icounted Isolution Itotal Itaken].
  destruct Imain as (rest & Hgen & _).
  destruct (Ihash O m b i Hm Hpc) as (_ & _ & Hpart).
  rewrite Islot, Htaken in Hgen. rewrite Hgen in Igenerated.
  rewrite <- !app_assoc, app_assoc in Igenerated.
  symmetry in Igenerated. apply tasks_upto_prefix in Igenerated.
  rewrite length_app, Nat.add_comm in Igenerated. simpl in Igenerated.
  rewrite tasks_upto_S in Igenerated.
  apply app_inj_tail in Igenerated. destruct Igenerated as [Hcounted ->].
  apply least_in_tasks; try assumption.
  intros b' Hb'. rewrite <- Hcounted in Hb'. apply Icounted, Hb'.
Qed.

Lemma single_step tr s t :
  invariant 1 tr s -> single_invariant tr s ->
  single_invariant (tr ++ snd (step t s)) (fst (step t s)).
Proof.
  intros Hinv [Hhash Hidle Hleast].
  pose proof (inv_threads _ _ _ _ _ _ _ Hinv) as Hlen.
  pose proof (inv_solution _ _ _ _ _ _ _ Hinv) as Hsol.
  destruct t as [|[|id]].
  - assert (threads (fst (step Main s)) = threads s) as Hth
        by (step_cases; reflexivity).
    assert (taken (snd (step Main s)) = []) as Ht
        by (step_cases; reflexivity).
    assert (counted (snd (step Main s)) = []) as Hc
        by (step_cases; reflexivity).
    split; intros m'; intros; rewrite Hth in *;
      autorewrite with events; rewrite ?Ht, ?Hc;
      autorewrite with events; eauto.
  - destruct (threads s !! O) as [m|] eqn:Hm.
    2:{ unfold_step. rewrite Hm. simpl. autorewrite with events.
        split; intros; congruence. }
    destruct (returned m) eqn:Hret.
    { unfold returned in Hret. unfold_step. rewrite Hm.
      destruct (at_pc m); try discriminate.
      simpl. autorewrite with events.
      split; intro; intros; rewrite Hm in *; eauto. }
    assert (has_solution (info m) = false) as Hno.
    { specialize (Hsol O m Hm). unfold returned in Hret.
      destruct (has_solution (info m)); [|reflexivity].
      destruct Hsol as (_ & Hpc & _). rewrite Hpc in Hret. discriminate. }
    clear Hsol Hleast.
    pose proof (solved_task_least tr s m) as Hsolved.
    specialize (Hhash m). specialize (Hidle m).
    unfold has_solution in Hno.
    split.
    + intros m' b' i'. step_cases; autorewrite with events; simpl;
        intros Hm';
        first [ apply lookup_set_miner in Hm';
                destruct Hm' as [[_ ->] | [Hne _]]; [|congruence]
              | simplify_eq ];
        simpl; eauto; try discriminate;
        intros Hpc; simplify_eq;
        first [ f_equal; apply Hidle; auto; unfold hashing;
                rewrite_pc; reflexivity
              | eapply Hhash; eauto ].
    + intros m'. step_cases; autorewrite with events; simpl;
        intros Hm';
        first [ apply lookup_set_miner in Hm';
                destruct Hm' as [[_ ->] | [Hne _]]; [|congruence]
              | simplify_eq ];
        unfold hashing in *; simpl; rewrite_pc;
        intros Hh Hn; try (discriminate Hh);
        try (rewrite has_solution_sha1tostring in Hn; discriminate Hn);
        first [ eapply Hhash; eauto; fail
              | apply Hidle; auto; rewrite_pc; reflexivity ].
    + intros m'. step_cases; autorewrite with events;
        intros Hm';
        first [ apply lookup_set_miner in Hm';
                destruct Hm' as [[_ ->] | [Hne _]]; [|congruence]
              | simplify_eq ];
        unfold has_solution, at_, count_task, record_solution;
        cbn [info solution_hash nonce]; intros Hs;
        try (rewrite Hno in Hs; discriminate Hs).
      apply Nat.ltb_lt in Heqb.
      eapply Hsolved; eauto.
  - assert (threads s !! S id = None) as Hnone.
    { apply lookup_ge_None. lia. }
    unfold_step. rewrite Hnone. simpl. autorewrite with events.
    split; eauto.
Qed.

Lemma single_init : single_invariant [] (init 1).
Proof.
  split; simpl; intros m; intros; simplify_eq; try reflexivity; discriminate.
Qed.

Lemma single_reachable tr s : reachable 1 tr s -> single_invariant tr s.
Proof.
  induction 1 as [|tr s t Hr IH]; [apply single_init|].
  apply single_step; [|exact IH].
  apply reachable_invariant, Hr.
Qed.

End Single.

(** ** Runs with one thread *)

Lemma uint64_task_below_max k : (uint64 (120 * k) <? UINT64_MAX) = true.
Proof.
  apply Z.ltb_lt. pose proof (uint64_range (120 * k)) as Hr.
  assert (uint64 (120 * k) mod 2 = 0) as Heven.
  { unfold uint64. rewrite Z.mod_mod_divide by (exists (2 ^ 63); reflexivity).
    replace (120 * k) with (60 * k * 2) by lia. apply Z.mod_mul. lia. }
  assert (UINT64_MAX mod 2 = 1) as Hodd by reflexivity.
  destruct (Z.eq_dec (uint64 (120 * k)) UINT64_MAX) as [Heq | Hne].
  - rewrite Heq in Heven. congruence.
  - unfold UINT64_MAX in *. lia.
Qed.

Section Rounds.

Variable sha1sum : list Z -> list Z.
Variable stale : nat -> Z.
Variable block : list Z.
Variable mask : Z.

Local Abbreviation step := (step sha1sum stale block mask).
Local Abbreviation exec := (exec sha1sum stale block mask).
Local Abbreviation trace := (trace sha1sum stale block mask).
Local Abbreviation solves := (solves sha1sum stale block mask).
Local Abbreviation rejected := (rejected sha1sum stale block mask).
Local Abbreviation least_solution := (least_solution sha1sum stale block mask).
Local Abbreviation record_solution := (record_solution sha1sum stale block).

Lemma exec_cons t sched s s' ev :
  step t s = (s', ev) -> exec (t :: sched) s = exec sched s'.
Proof. intros H. simpl. rewrite H. reflexivity. Qed.

Lemma trace_cons t sched s s' ev :
  step t s = (s', ev) -> trace (t :: sched) s = ev ++ trace sched s'.
Proof. intros H. simpl. rewrite H. reflexivity. Qed.

(** *** The steps of [main] *)

Lemma main_fill slot found mx c m b c' :
  (c <? UINT64_MAX) = true ->
  fill_nonces NONCES_PER_TASK c = (b, c') ->
  step Main (single_state slot found mx c MLoop m) =
  (single_state slot found mx c' (MLock b) m, [Generated b]).
Proof.
  intros Hc Hfill. unfold_step. unfold single_state.
  cbn [main_at current_nonce]. rewrite Hc, Hfill. reflexivity.
Qed.

Lemma main_lock slot found c m b :
  step Main (single_state slot found None c (MLock b) m) =
  (single_state slot found (Some Main) c (MCheck b) m, []).
Proof. reflexivity. Qed.

Lemma main_check_empty mx c m b :
  step Main (single_state None false mx c (MCheck b) m) =
  (single_state None false mx c (MTest b) m, []).
Proof. reflexivity. Qed.

Lemma main_check_found slot mx c m b :
  step Main (single_state slot true mx c (MCheck b) m) =
  (single_state slot true mx c (MTest b) m, []).
Proof.
  unfold_step. unfold single_state. simpl.
  rewrite andb_false_r. reflexivity.
Qed.

Lemma main_test slot found mx c m b :
  step Main (single_state slot found mx c (MTest b) m) =
  (single_state slot found mx c (if found then MBreak else MPublish b) m, []).
Proof. destruct found; reflexivity. Qed.

Lemma main_publish slot found mx c m b :
  step Main (single_state slot found mx c (MPublish b) m) =
  (single_state (Some b) found None c MLoop m, [Published b]).
Proof. reflexivity. Qed.

Lemma main_break slot found c m :
  step Main (single_state slot found (Some Main) c MBreak m) =
  (single_state slot found None c MJoin m, []).
Proof. reflexivity. Qed.

Lemma main_join slot found mx c m :
  at_pc m = WReturn ->
  step Main (single_state slot found mx c MJoin m) =
  (single_state slot found mx c MDone m, []).
Proof.
  intros Hpc. unfold_step. unfold single_state, returned. simpl.
  rewrite Hpc. reflexivity.
Qed.

(** *** The steps of the thread *)

Lemma mine_lock slot found c pc m :
  step (Miner O) (single_state slot found None c pc (at_ WLock m)) =
  (single_state slot found (Some (Miner O)) c pc (at_ WCheck m), []).
Proof. reflexivity. Qed.

Lemma mine_check_full b found mx c pc m :
  step (Miner O) (single_state (Some b) found mx c pc (at_ WCheck m)) =
  (single_state (Some b) found mx c pc (at_ WTest m), []).
Proof. reflexivity. Qed.

Lemma mine_test slot mx c pc m :
  step (Miner O) (single_state slot false mx c pc (at_ WTest m)) =
  (single_state slot false mx c pc (at_ WTake m), []).
Proof. reflexivity. Qed.

Lemma mine_take b found mx c pc m :
  step (Miner O) (single_state (Some b) found mx c pc (at_ WTake m)) =
  (single_state None found None c pc (at_ (WHash b 0) m), [Taken O b]).
Proof. reflexivity. Qed.

Lemma mine_reject b i slot found mx c pc m :
  (i < NONCES_PER_TASK)%nat -> solves (nth i b 0) = false ->
  step (Miner O) (single_state slot found mx c pc (at_ (WHash b i) m)) =
  (single_state slot found mx c pc (at_ (WHash b (S i)) m), []).
Proof.
  intros Hi Hrej. unfold_step. unfold single_state. simpl.
  apply Nat.ltb_lt in Hi. rewrite Hi, Hrej. reflexivity.
Qed.

Lemma mine_count b slot found mx c pc m :
  step (Miner O)
       (single_state slot found mx c pc (at_ (WHash b NONCES_PER_TASK) m)) =
  (single_state slot found mx c pc (count_task m), [Counted O b]).
Proof. reflexivity. Qed.

Lemma mine_solve b i slot found mx c pc m :
  (i < NONCES_PER_TASK)%nat -> solves (nth i b 0) = true ->
  step (Miner O) (single_state slot found mx c pc (at_ (WHash b i) m)) =
  (single_state slot true mx c pc (record_solution (nth i b 0) m),
   [Solved O (nth i b 0)]).
Proof.
  intros Hi Hsolves. unfold_step. unfold single_state. simpl.
  apply Nat.ltb_lt in Hi. rewrite Hi, Hsolves. reflexivity.
Qed.

(** *** Stretches of a run *)

Ltac exec_with L :=
  erewrite exec_cons by (apply L; first [eassumption | lia]).
Ltac trace_with L :=
  erewrite trace_cons by (apply L; first [eassumption | lia]).

Lemma stage_run c b c' m :
  (c <? UINT64_MAX) = true ->
  fill_nonces NONCES_PER_TASK c = (b, c') ->
  exec stage_sched (single_state None false None c MLoop m) =
    single_state (Some b) false None c' MLoop m /\
  trace stage_sched (single_state None false None c MLoop m) =
    [Generated b; Published b].
Proof.
  intros Hc Hfill.
  change stage_sched with [Main; Main; Main; Main; Main]. split.
  - exec_with main_fill. exec_with main_lock. exec_with main_check_empty.
    exec_with main_test. exec_with main_publish. reflexivity.
  - trace_with main_fill. trace_with main_lock. trace_with main_check_empty.
    trace_with main_test. trace_with main_publish. reflexivity.
Qed.

Lemma take_run b c pc m :
  exec take_sched (single_state (Some b) false None c pc (at_ WLock m)) =
    single_state None false None c pc (at_ (WHash b 0) m) /\
  trace take_sched (single_state (Some b) false None c pc (at_ WLock m)) =
    [Taken O b].
Proof.
  change take_sched with [Miner O; Miner O; Miner O; Miner O]. split.
  - exec_with mine_lock. exec_with mine_check_full. exec_with mine_test.
    exec_with mine_take. reflexivity.
  - trace_with mine_lock. trace_with mine_check_full. trace_with mine_test.
    trace_with mine_take. reflexivity.
Qed.

Lemma work_run b slot found mx c pc m : forall j i,
  (i + j <= NONCES_PER_TASK)%nat ->
  (forall r, (i <= r < i + j)%nat -> solves (nth r b 0) = false) ->
  exec (repeat (Miner O) j)
       (single_state slot found mx c pc (at_ (WHash b i) m)) =
    single_state slot found mx c pc (at_ (WHash b (i + j)) m) /\
  trace (repeat (Miner O) j)
        (single_state slot found mx c pc (at_ (WHash b i) m)) = [].
Proof.
  induction j as [|j IH]; intros i Hi Hrej.
  - rewrite Nat.add_0_r. split; reflexivity.
  - change (repeat (Miner O) (S j)) with (Miner O :: repeat (Miner O) j).
    assert (solves (nth i b 0) = false) as Hrej_i by (apply Hrej; lia).
    destruct (IH (S i)) as [He Ht]; [lia|intros r Hr; apply Hrej; lia|].
    replace (i + S j)%nat with (S i + j)%nat by lia. split.
    + exec_with mine_reject. exact He.
    + trace_with mine_reject. exact Ht.
Qed.

Lemma join_run c m :
  (c <? UINT64_MAX) = true -> at_pc m = WReturn ->
  main_at (exec (repeat Main 6) (single_state None true None c MLoop m)) =
    MDone /\
  threads (exec (repeat Main 6) (single_state None true None c MLoop m)) =
    [m].
Proof.
  intros Hc Hpc.
  change (repeat Main 6) with [Main; Main; Main; Main; Main; Main].
  destruct (fill_nonces NONCES_PER_TASK c) as [b c'] eqn:Hfill.
  exec_with main_fill. exec_with main_lock. exec_with main_check_found.
  exec_with main_test. exec_with main_break. exec_with main_join.
  split; reflexivity.
Qed.

Lemma rejected_nth b r :
  rejected b -> (r < length b)%nat -> solves (nth r b 0) = false.
Proof.
  intros Hrej Hr. unfold_rejected. rewrite Forall_lookup in Hrej.
  destruct (lookup_lt_is_Some_2 b r Hr) as [x Hx].
  rewrite (nth_lookup_Some _ _ _ _ Hx). apply (Hrej _ _ Hx).
Qed.

Lemma taken_after_rounds k :
  exec (stage_sched ++ take_sched) (after_rounds k) =
    single_state None false None (uint64 (120 * Z.of_nat (S k))) MLoop
      (at_ (WHash (nth_task (Z.of_nat k)) 0)
           (idle_miner (uint64 (120 * Z.of_nat k)))) /\
  published (trace (stage_sched ++ take_sched) (after_rounds k)) =
    [nth_task (Z.of_nat k)].
Proof.
  destruct (stage_run (uint64 (120 * Z.of_nat k)) (nth_task (Z.of_nat k))
              (uint64 (120 * Z.of_nat (S k)))
              (idle_miner (uint64 (120 * Z.of_nat k)))) as [Hs Hst].
  { apply uint64_task_below_max. }
  { apply (fill_nonces_task k). }
  destruct (take_run (nth_task (Z.of_nat k)) (uint64 (120 * Z.of_nat (S k)))
              MLoop (idle_miner (uint64 (120 * Z.of_nat k)))) as [Ht Htt].
  unfold after_rounds. rewrite exec_app, trace_app, published_app.
  rewrite Hs, Hst. split; [exact Ht|].
  change (idle_miner (uint64 (120 * Z.of_nat k)))
    with (at_ WLock (idle_miner (uint64 (120 * Z.of_nat k)))).
  rewrite Htt. reflexivity.
Qed.

Lemma round_run k :
  rejected (nth_task (Z.of_nat k)) ->
  exec round_sched (after_rounds k) = after_rounds (S k) /\
  published (trace round_sched (after_rounds k)) = [nth_task (Z.of_nat k)].
Proof.
  intros Hrej.
  change round_sched
    with ((stage_sched ++ take_sched) ++ repeat (Miner O) 120 ++ [Miner O]).
  destruct (taken_after_rounds k) as [Ht Htt].
  destruct (work_run (nth_task (Z.of_nat k)) None false None
              (uint64 (120 * Z.of_nat (S k))) MLoop
              (idle_miner (uint64 (120 * Z.of_nat k))) 120 0) as [Hw Hwt].
  { reflexivity. }
  { intros r Hr. apply rejected_nth; [exact Hrej|].
    rewrite length_nth_task. change NONCES_PER_TASK with 120%nat. lia. }
  rewrite (exec_app _ _ _ _ (stage_sched ++ take_sched)).
  rewrite (trace_app _ _ _ _ (stage_sched ++ take_sched)).
  rewrite published_app, Ht, Htt.
  rewrite (exec_app _ _ _ _ (repeat (Miner O) 120)).
  rewrite (trace_app _ _ _ _ (repeat (Miner O) 120)).
  rewrite published_app, Hw, Hwt.
  change (0 + 120)%nat with NONCES_PER_TASK.
  split.
  - exec_with mine_count. unfold after_rounds, count_task, idle_miner.
    cbn [exec info num_inversions thread_id nonce solution_hash].
    change (Z.of_nat NONCES_PER_TASK) with 120.
    rewrite uint64_add_l.
    replace (120 * Z.of_nat k + 120) with (120 * Z.of_nat (S k)) by lia.
    reflexivity.
  - trace_with mine_count. reflexivity.
Qed.

Lemma rounds_run k :
  (forall q, (q < k)%nat -> rejected (nth_task (Z.of_nat q))) ->
  exec (rounds_sched k) (init 1) = after_rounds k /\
  published (trace (rounds_sched k) (init 1)) = tasks_upto k.
Proof.
  induction k as [|k IH]; intros Hrej.
  - split; reflexivity.
  - destruct IH as [He Ht]; [intros q Hq; apply Hrej; lia|].
    destruct (round_run k) as [Hr Hrt]; [apply Hrej; lia|].
    change (rounds_sched (S k)) with (rounds_sched k ++ round_sched).
    rewrite exec_app, trace_app, published_app, He, Ht, Hr, Hrt.
    rewrite tasks_upto_S. split; reflexivity.
Qed.

End Rounds.

Section Search.

Variable sha1sum : list Z -> list Z.
Variable stale : nat -> Z.
Variable block : list Z.
Variable mask : Z.

Local Abbreviation step := (step sha1sum stale block mask).
Local Abbreviation exec := (exec sha1sum stale block mask).
Local Abbreviation trace := (trace sha1sum stale block mask).
Local Abbreviation solves := (solves sha1sum stale block mask).
Local Abbreviation rejected := (rejected sha1sum stale block mask).
Local Abbreviation least_solution := (least_solution sha1sum stale block mask).
Local Abbreviation record_solution := (record_solution sha1sum stale block).
Local Abbreviation search_from := (search_from sha1sum stale block mask).

(** *** The sequential search *)

Lemma search_from_found fuel : forall from n,
  search_from fuel from = Some n ->
  from <= n /\ solves n = true /\
  forall m, from <= m < n -> solves m = false.
Proof.
  induction fuel as [|fuel IH]; intros from n H; simpl in H; [discriminate|].
  destruct (solves from) eqn:Hfrom.
  - injection H as <-. split_and!; [lia|exact Hfrom|]. intros m Hm. lia.
  - destruct (IH _ _ H) as (Hle & Hn & Hbelow).
    split_and!; [lia|exact Hn|].
    intros m Hm. destruct (Z.eq_dec m from) as [->|Hne]; [exact Hfrom|].
    apply Hbelow. lia.
Qed.

Lemma search_from_reaches j : forall from,
  (forall m, from <= m < from + Z.of_nat j -> solves m = false) ->
  solves (from + Z.of_nat j) = true ->
  search_from (S j) from = Some (from + Z.of_nat j).
Proof.
  induction j as [|j IH]; intros from Hbelow Hsolves.
  - simpl in *. rewrite Z.add_0_r in *. rewrite Hsolves. reflexivity.
  - change (search_from (S (S j)) from)
      with (if solves from then Some from
            else search_from (S j) (from + 1)).
    rewrite Hbelow by lia.
    replace (from + Z.of_nat (S j)) with (from + 1 + Z.of_nat j) in * by lia.
    apply IH; [|exact Hsolves]. intros m Hm. apply Hbelow. lia.
Qed.

Lemma search_least n :
  least_solution n -> search_from (S (Z.to_nat n)) 0 = Some n.
Proof.
  intros (Hpos & Hsolves & Hbelow).
  rewrite <- (Z2Nat.id n Hpos) at 2.
  apply (search_from_reaches (Z.to_nat n) 0).
  - intros m Hm. apply Hbelow. lia.
  - simpl. rewrite Z2Nat.id by exact Hpos. exact Hsolves.
Qed.

(** *** The run that finds the least solution *)

Lemma least_below_wrap n : least_solution n -> n < 2 ^ 64.
Proof.
  intros (Hpos & Hsolves & Hbelow).
  destruct (Z.lt_ge_cases n (2 ^ 64)) as [Hlt | Hge]; [exact Hlt|].
  exfalso. pose proof (uint64_range n) as Hr.
  specialize (Hbelow (uint64 n) ltac:(lia)).
  rewrite solves_uint64 in Hbelow. congruence.
Qed.

Lemma solving_run k i :
  (i < NONCES_PER_TASK)%nat ->
  (forall q, (q < k)%nat -> rejected (nth_task (Z.of_nat q))) ->
  (forall r, (r < i)%nat -> solves (nth r (nth_task (Z.of_nat k)) 0) = false) ->
  solves (nth i (nth_task (Z.of_nat k)) 0) = true ->
  main_at (exec (solving_sched k i) (init 1)) = MDone /\
  threads (exec (solving_sched k i) (init 1)) =
    [record_solution (nth i (nth_task (Z.of_nat k)) 0)
                     (idle_miner (uint64 (120 * Z.of_nat k)))].
Proof.
  intros Hi Hdone Hpart Hsolves.
  set (b := nth_task (Z.of_nat k)) in *.
  set (m := idle_miner (uint64 (120 * Z.of_nat k))).
  assert (solving_sched k i =
          rounds_sched k ++ (stage_sched ++ take_sched) ++
          repeat (Miner O) i ++ Miner O :: repeat Main 6) as ->.
  { unfold solving_sched.
    change (repeat (Miner O) (S i)) with (Miner O :: repeat (Miner O) i).
    rewrite repeat_cons, <- !app_assoc. reflexivity. }
  destruct (rounds_run sha1sum stale block mask k Hdone) as [Hr _].
  destruct (taken_after_rounds sha1sum stale block mask k) as [Ht _].
  destruct (work_run sha1sum stale block mask b None false None
              (uint64 (120 * Z.of_nat (S k))) MLoop m i 0) as [Hw _].
  { lia. }
  { intros r Hr'. apply Hpart. lia. }
  rewrite (exec_app _ _ _ _ (rounds_sched k)), Hr.
  rewrite (exec_app _ _ _ _ (stage_sched ++ take_sched)), Ht.
  rewrite (exec_app _ _ _ _ (repeat (Miner O) i)). fold b m. rewrite Hw.
  erewrite exec_cons by (apply mine_solve; [exact Hi|exact Hsolves]).
  apply join_run; [apply uint64_task_below_max|reflexivity].
Qed.

Lemma least_run n :
  least_solution n ->
  main_at (exec (solving_sched (Z.to_nat (n / 120)) (Z.to_nat (n mod 120)))
                (init 1)) = MDone /\
  map nonce
      (winners
         (threads
            (exec (solving_sched (Z.to_nat (n / 120)) (Z.to_nat (n mod 120)))
                  (init 1)))) = [n].
Proof.
  intros Hleast. pose proof (least_below_wrap n Hleast) as Hmax.
  destruct Hleast as (Hpos & Hsolves & Hbelow).
  assert (0 <= n mod 120 < 120) as Hr by (apply Z.mod_pos_bound; lia).
  pose proof (Z.div_mod n 120 ltac:(lia)) as Hdm.
  assert (0 <= n / 120) as Hq by (apply Z.div_pos; lia).
  set (k := Z.to_nat (n / 120)). set (i := Z.to_nat (n mod 120)).
  assert (i < NONCES_PER_TASK)%nat as Hi
      by (change NONCES_PER_TASK with 120%nat; lia).
  assert (forall q r : nat,
            (r < NONCES_PER_TASK)%nat ->
            nth r (nth_task (Z.of_nat q)) 0 =
            uint64 (120 * Z.of_nat q + Z.of_nat r)) as Hnth.
  { intros q r Hlt. apply nth_lookup_Some.
    apply (lookup_nth_task (Z.of_nat q) r Hlt). }
  assert (forall q r : nat,
            (r < NONCES_PER_TASK)%nat ->
            120 * Z.of_nat q + Z.of_nat r < n ->
            solves (nth r (nth_task (Z.of_nat q)) 0) = false) as Hrej.
  { intros q r Hlt Hlow. rewrite Hnth by exact Hlt.
    rewrite uint64_small by lia. apply Hbelow. lia. }
  destruct (solving_run k i Hi) as [Hdone Hthreads].
  - intros q Hlt. unfold_rejected. apply Forall_lookup. intros r x Hx.
    pose proof (lookup_lt_Some _ _ _ Hx) as Hlen.
    rewrite length_nth_task in Hlen.
    rewrite <- (nth_lookup_Some _ _ 0 _ Hx).
    apply Hrej; [exact Hlen|].
    change NONCES_PER_TASK with 120%nat in Hlen. lia.
  - intros r Hlt. apply Hrej; lia.
  - rewrite Hnth by exact Hi.
    replace (120 * Z.of_nat k + Z.of_nat i) with n by lia.
    rewrite uint64_small by lia. exact Hsolves.
  - split; [exact Hdone|]. rewrite Hthreads.
    rewrite Hnth by exact Hi.
    replace (120 * Z.of_nat k + Z.of_nat i) with n by lia.
    rewrite uint64_small by lia.
    unfold winners. cbn [map].
    rewrite filter_cons_True by apply has_solution_sha1tostring.
    reflexivity.
Qed.

(** C6.  Going through 0, 1, 2, ... with the test of [mine] stops at the
    smallest nonce that passes it, whenever there is one, and at nothing
    else.  With one [mine] thread, a nonce that the thread reports in any
    run is that smallest nonce, the one the sequential search stops at;
    and when there is a smallest nonce, the run in which [main] and the
    thread take turns ends with [main] past the join and that nonce as
    the only solution reported. *)
Theorem single_thread_least :
  (forall n, least_solution n -> search_from (S (Z.to_nat n)) 0 = Some n) /\
  (forall fuel n, search_from fuel 0 = Some n -> least_solution n) /\
  (forall sched m,
     threads (exec sched (init 1)) !! O = Some m ->
     has_solution (info m) = true ->
     least_solution (nonce (info m)) /\
     search_from (S (Z.to_nat (nonce (info m)))) 0 = Some (nonce (info m))) /\
  (forall n,
     least_solution n ->
     exists sched,
       main_at (exec sched (init 1)) = MDone /\
       map nonce (winners (threads (exec sched (init 1)))) = [n]).
Proof.
  split_and!.
  - apply search_least.
  - intros fuel n H. destruct (search_from_found fuel 0 n H) as (H0 & H1 & H2).
    split_and!; assumption.
  - intros sched m Hm Hsol.
    pose proof (single_reachable sha1sum stale block mask _ _
                  (reachable_exec sha1sum stale block mask 1 sched)) as Hs.
    pose proof (single_least _ _ _ _ _ _ Hs m Hm Hsol) as Hleast.
    split; [exact Hleast|]. apply search_least, Hleast.
  - intros n Hleast. eexists. apply (least_run n Hleast).
Qed.

(** *** A run that goes on until the nonces wrap *)

Lemma endless_run k :
  (forall n, solves n = false) ->
  published (trace (rounds_sched k) (init 1)) = tasks_upto k.
Proof.
  intros Hnever. apply rounds_run. intros q _.
  unfold_rejected. apply Forall_forall. intros n _. apply Hnever.
Qed.

End Search.

(** * Examples *)

Example mask_of_difficulty_24 : get_difficulty 24 = Some 255.
Proof. reflexivity. Qed.

Example mask_of_difficulty_0 : get_difficulty 0 = Some mask_all.
Proof. reflexivity. Qed.

Example text_of_nonce :
  c_str (tmp_str stale_aa hello 1011686) =
  hello ++ [49; 48; 49; 49; 54; 56; 54].
Proof. reflexivity. Qed.

Example front_of_digest :
  hash_front [0; 0; 0; 185; 118; 163] = 185 /\
  is_solution 255 [0; 0; 0; 185; 118; 163] = true /\
  is_solution 127 [0; 0; 0; 185; 118; 163] = false /\
  hash_front [200; 1; 2; 3] = 3355509251.
Proof. repeat split; reflexivity. Qed.

(** The text for the block "Hello" and the nonce 1011686. *)
Lemma hashed_text_witness :
  c_str (tmp_str stale_aa hello 1011686) = hello ++ fmt_llu 1011686 /\
  canonical_decimal (fmt_llu 1011686) /\
  decimal_value (fmt_llu 1011686) = 1011686 /\
  length (tmp_str stale_aa hello 1011686) =
    (length (hello ++ fmt_llu 1011686) + 1)%nat /\
  digest_of byte_sum_digest stale_aa hello 1011686 =
    byte_sum_digest (hello ++ fmt_llu 1011686) /\
  solves byte_sum_digest stale_aa hello 255 1011686 =
    is_solution 255 (byte_sum_digest (hello ++ fmt_llu 1011686)).
Proof.
  apply (hashed_text byte_sum_digest stale_aa hello 255 1011686).
  - unfold hello. repeat (constructor; [lia|]). constructor.
  - lia.
Defined.

(** With difficulty 0 every nonce passes the test.  Thread 0 holds the
    task 0..119 and thread 1 the task 120..239; thread 0 reports nonce 0
    and sets the flag, and thread 1, whose first nonce passes as well,
    reports nonce 120 although the flag is already set. *)
Lemma two_threads_report :
  solution_found
    (exec byte_sum_digest stale_aa hello mask_all first_solver_sched (init 2))
    = true /\
  map (fun r => (thread_id r, nonce r))
      (winners (threads
         (exec byte_sum_digest stale_aa hello mask_all
               first_solver_sched (init 2)))) = [(O, 0)] /\
  map (fun r => (thread_id r, nonce r))
      (winners (threads
         (exec byte_sum_digest stale_aa hello mask_all
               (first_solver_sched ++ [Miner 1%nat]) (init 2)))) =
    [(O, 0); (1%nat, 120)].
Proof. vm_compute. auto. Qed.

(** With [ones_digest] and difficulty 32 no nonce passes the test, so
    the run with one thread never ends.  Task number 153722867280912930
    starts at 18446744073709551600; its seventeenth nonce is 0 again. *)
Lemma ones_digest_rejects n : solves ones_digest stale_aa hello 0 n = false.
Proof. reflexivity. Qed.

Lemma wrapping_task_nonces :
  nth 15 (nth_task WRAPPING_TASK) 0 = 18446744073709551615 /\
  nth 16 (nth_task WRAPPING_TASK) 0 = 0 /\
  nth 16 (consecutive (120 * WRAPPING_TASK) 120) 0 = 18446744073709551616.
Proof. vm_compute. auto. Qed.

Lemma wrapping_task_published (k : nat) :
  Z.of_nat k = WRAPPING_TASK ->
  exists sched b,
    published (trace ones_digest stale_aa hello 0 sched (init 1)) !! k
      = Some b /\
    b <> consecutive (120 * WRAPPING_TASK) 120.
Proof.
  intros Hk. exists (rounds_sched (S k)), (nth_task WRAPPING_TASK).
  rewrite (endless_run _ _ _ _ (S k) ones_digest_rejects). split.
  - unfold tasks_upto. rewrite list_lookup_fmap.
    rewrite lookup_seq_lt by apply Nat.lt_succ_diag_r.
    simpl. rewrite Hk. reflexivity.
  - intros Heq. apply (f_equal (fun l => nth 16 l 0)) in Heq.
    destruct wrapping_task_nonces as (_ & H1 & H2).
    rewrite H1, H2 in Heq. discriminate Heq.
Qed.

Lemma tasks_wrap_around :
  exists sched b,
    published (trace ones_digest stale_aa hello 0 sched (init 1))
      !! Z.to_nat WRAPPING_TASK = Some b /\
    b <> consecutive (120 * WRAPPING_TASK) 120.
Proof.
  apply wrapping_task_published. apply Z2Nat.id. discriminate.
Qed.

(** With the checksum as digest, the block "d" and difficulty 8, the
    first nonce whose text sums to 0 modulo 256 is 129: the sequential
    search stops there, and so does the run with one thread, in its
    second task. *)
Example single_thread_finds_129 :
  get_difficulty 8 = Some 16777215 /\
  search_from byte_sum_digest stale_aa [100] 16777215 200 0 = Some 129 /\
  main_at (exec byte_sum_digest stale_aa [100] 16777215
                (solving_sched 1 9) (init 1)) = MDone /\
  map nonce
      (winners (threads (exec byte_sum_digest stale_aa [100] 16777215
                              (solving_sched 1 9) (init 1)))) = [129] /\
  total_inversions
    (threads (exec byte_sum_digest stale_aa [100] 16777215
                   (solving_sched 1 9) (init 1))) = 120.
Proof. vm_compute. auto. Qed.



(** * Further properties *)

(** ** [print_binary32] *)


Lemma land_pow2 v i :
  0 <= i -> Z.land v (2 ^ i) = if Z.testbit v i then 2 ^ i else 0.
Proof.
  intros Hi. apply Z.bits_inj'. intros n Hn.
  rewrite Z.land_spec, Z.pow2_bits_eqb by exact Hi.
  destruct (Z.eqb_spec i n) as [->|Hne].
  - rewrite andb_true_r. destruct (Z.testbit v n) eqn:Hv.
    + rewrite Z.pow2_bits_true by exact Hn. reflexivity.
    + rewrite Z.bits_0. reflexivity.
  - rewrite andb_false_r. destruct (Z.testbit v i).
    + rewrite Z.pow2_bits_false by exact Hne. reflexivity.
    + rewrite Z.bits_0. reflexivity.
Qed.

Lemma position_test v i :
  0 <= i -> (Z.land v (2 ^ i) =? 2 ^ i) = Z.testbit v i.
Proof.
  intros Hi. rewrite land_pow2 by exact Hi.
  assert (0 < 2 ^ i) by (apply Z.pow_pos_nonneg; lia).
  destruct (Z.testbit v i).
  - apply Z.eqb_refl.
  - apply Z.eqb_neq. lia.
Qed.

Lemma print_binary32_loop_spec n v :
  (n <= 32)%nat ->
  print_binary32_loop n v =
  Some (map (fun k => bit_char (Z.testbit v (Z.of_nat (n - 1 - k))))
            (seq 0 n)).
Proof.
  induction n as [|n IH]; intros Hn; [reflexivity|].
  simpl print_binary32_loop.
  rewrite shl_int_in_range by lia.
  rewrite uint32_int32, Z.mul_1_l, uint32_small.
  2:{ split; [lia|]. apply Z.pow_lt_mono_r; lia. }
  rewrite position_test by lia. rewrite IH by lia.
  rewrite <- cons_seq, <- seq_shift, map_cons, map_map. f_equal. f_equal.
  - replace (S n - 1 - 0)%nat with n by lia.
    destruct (Z.testbit v (Z.of_nat n)); reflexivity.
  - apply map_ext_in. intros k Hk. apply in_seq in Hk.
    do 3 f_equal. lia.
Qed.

Lemma binary_fold cs : forall a,
  fold_left (fun v c => 2 * v + (c - 48)) cs a =
  a * 2 ^ Z.of_nat (length cs) + binary_value cs.
Proof.
  unfold binary_value.
  induction cs as [|d cs IH]; intros a.
  - simpl. lia.
  - simpl fold_left. rewrite IH, (IH (2 * 0 + (d - 48))).
    replace (Z.of_nat (length (d :: cs))) with (1 + Z.of_nat (length cs))
      by (simpl length; lia).
    rewrite Z.pow_add_r by lia. lia.
Qed.

Lemma binary_value_cons c cs :
  binary_value (c :: cs) = (c - 48) * 2 ^ Z.of_nat (length cs) + binary_value cs.
Proof.
  unfold binary_value at 1. simpl fold_left. rewrite binary_fold. lia.
Qed.

Lemma binary_value_bits n v :
  binary_value (map (fun k => bit_char (Z.testbit v (Z.of_nat (n - 1 - k))))
                    (seq 0 n)) = v mod 2 ^ Z.of_nat n.
Proof.
  induction n as [|n IH].
  - simpl. rewrite Z.mod_1_r. reflexivity.
  - rewrite <- cons_seq, <- seq_shift, map_cons, map_map.
    rewrite binary_value_cons, length_map, length_seq.
    replace (S n - 1 - 0)%nat with n by lia.
    erewrite (map_ext_in _ (fun k => bit_char (Z.testbit v (Z.of_nat (n - 1 - k))))).
    2:{ intros k Hk. apply in_seq in Hk. do 3 f_equal. lia. }
    rewrite IH.
    replace (Z.of_nat (S n)) with (Z.of_nat n + 1) by lia.
    rewrite Z.pow_add_r, Z.pow_1_r by lia.
    rewrite Z.rem_mul_r by (try apply Z.pow_nonzero; lia).
    assert (bit_char (Z.testbit v (Z.of_nat n)) - 48 =
            (v / 2 ^ Z.of_nat n) mod 2) as ->.
    { rewrite <- Z.testbit_spec' by lia.
      destruct (Z.testbit v (Z.of_nat n)); reflexivity. }
    lia.
Qed.

(** X1.  [print_binary32] prints 32 characters, each 0 or 1, the most
    significant bit first: the k-th character is 1 exactly when bit
    31 - k of the number is set. *)
Theorem print_binary32_bits (num : Z) :
  exists cs,
    print_binary32 num = Some cs /\
    length cs = 32%nat /\
    forall k, (k < 32)%nat ->
      nth k cs 0 = bit_char (Z.testbit (uint32 num) (31 - Z.of_nat k)).
Proof.
  unfold print_binary32. rewrite print_binary32_loop_spec by lia.
  eexists. split; [reflexivity|]. split.
  - rewrite length_map, length_seq. reflexivity.
  - intros k Hk.
    rewrite (nth_lookup_Some _ _ _
               (bit_char (Z.testbit (uint32 num) (31 - Z.of_nat k)))).
    + reflexivity.
    + rewrite list_lookup_fmap, lookup_seq_lt by exact Hk. simpl.
      do 3 f_equal. lia.
Qed.

(** X2.  Read as a binary number, what [print_binary32] prints is the
    number printed, so two numbers that print alike are the same 32-bit
    value. *)
Theorem print_binary32_value (a b : Z) :
  (exists cs, print_binary32 a = Some cs /\ binary_value cs = uint32 a) /\
  (print_binary32 a = print_binary32 b -> uint32 a = uint32 b).
Proof.
  assert (forall v, exists cs,
            print_binary32 v = Some cs /\ binary_value cs = uint32 v) as Hval.
  { intros v. unfold print_binary32.
    rewrite print_binary32_loop_spec by lia.
    eexists. split; [reflexivity|].
    rewrite binary_value_bits. unfold uint32.
    change (2 ^ Z.of_nat 32) with (2 ^ 32). apply Z.mod_mod. lia. }
  split; [apply Hval|].
  intros Heq.
  destruct (Hval a) as (ca & Ha & Hva). destruct (Hval b) as (cb & Hb & Hvb).
  rewrite Ha, Hb in Heq. injection Heq as ->. congruence.
Qed.

Lemma map_constant {A B} (f : A -> B) (c : B) (l : list A) :
  (forall x, In x l -> f x = c) -> map f l = repeat c (length l).
Proof.
  induction l as [|x l IH]; intros H; simpl; [reflexivity|].
  rewrite (H x) by (left; reflexivity). f_equal.
  apply IH. intros y Hy. apply H. right. exact Hy.
Qed.

(** X3.  For a difficulty [d] from 0 to 32, the mask that [main] prints
    is [d] characters 0 followed by 32 - d characters 1. *)
Theorem difficulty_mask_printed (d : Z) :
  0 <= d <= 32 ->
  exists mask,
    get_difficulty d = Some mask /\
    print_binary32 mask =
      Some (repeat 48 (Z.to_nat d) ++ repeat 49 (32 - Z.to_nat d)).
Proof.
  intros Hd. exists (2 ^ (32 - d) - 1).
  split; [apply get_difficulty_in_range; exact Hd|].
  assert (0 < 2 ^ (32 - d)) by (apply Z.pow_pos_nonneg; lia).
  assert (2 ^ (32 - d) <= 2 ^ 32) by (apply Z.pow_le_mono_r; lia).
  unfold print_binary32. rewrite uint32_small by lia.
  rewrite print_binary32_loop_spec by lia. f_equal.
  assert (seq 0 32 = seq 0 (Z.to_nat d + (32 - Z.to_nat d))) as ->
      by (f_equal; lia).
  rewrite seq_app, map_app. f_equal.
  - rewrite (map_constant _ 48); [rewrite length_seq; reflexivity|].
    intros k Hk. apply in_seq in Hk.
    replace (2 ^ (32 - d) - 1) with (Z.ones (32 - d))
      by (rewrite Z.ones_equiv; lia).
    rewrite Z.ones_spec_high by lia. reflexivity.
  - rewrite (map_constant _ 49); [rewrite length_seq; reflexivity|].
    intros k Hk. apply in_seq in Hk.
    replace (2 ^ (32 - d) - 1) with (Z.ones (32 - d))
      by (rewrite Z.ones_equiv; lia).
    rewrite Z.ones_spec_low by lia. reflexivity.
Qed.

(** Difficulty 24, as in the sample run in the header of [mine.c]. *)
Lemma difficulty_mask_printed_witness :
  exists mask,
    get_difficulty 24 = Some mask /\
    print_binary32 mask =
      Some (repeat 48 (Z.to_nat 24) ++ repeat 49 (32 - Z.to_nat 24)).
Proof. apply (difficulty_mask_printed 24). lia. Defined.

(** ** What the mask asks of a digest *)

Lemma land_mask_iff l k :
  0 <= l -> 0 <= k -> (Z.land l (2 ^ k - 1) = l <-> l < 2 ^ k).
Proof.
  intros Hl Hk.
  replace (2 ^ k - 1) with (Z.ones k) by (rewrite Z.ones_equiv; lia).
  rewrite Z.land_ones by exact Hk.
  assert (0 < 2 ^ k) by (apply Z.pow_pos_nonneg; lia).
  split; intros H'.
  - rewrite <- H'. apply Z.mod_pos_bound. lia.
  - apply Z.mod_small. lia.
Qed.

Lemma leading_bits_range digest : 0 <= leading_bits digest < 2 ^ 32.
Proof.
  pose proof (uint8_range (nth 0 digest 0)).
  pose proof (uint8_range (nth 1 digest 0)).
  pose proof (uint8_range (nth 2 digest 0)).
  pose proof (uint8_range (nth 3 digest 0)).
  unfold leading_bits, big_endian32, digest_byte. lia.
Qed.

(** X4.  With the mask of difficulty [d], [mine] accepts a digest exactly
    when its first 32 bits, read big-endian, are below 2^(32-d), that is
    when its [d] leading bits are 0.  So a digest accepted at one
    difficulty is accepted at every lower one; difficulty 0 accepts
    every digest, difficulty 32 only those that start with four zero
    bytes. *)
Theorem difficulty_means_leading_zeros (d : Z) :
  0 <= d <= 32 ->
  exists mask,
    get_difficulty d = Some mask /\
    (forall digest,
       is_solution mask digest = true <->
       leading_bits digest < 2 ^ (32 - d)) /\
    (forall digest,
       is_solution mask digest = true <->
       forall j, 32 - d <= j < 32 ->
                 Z.testbit (leading_bits digest) j = false) /\
    (forall d' mask' digest,
       0 <= d' <= d -> get_difficulty d' = Some mask' ->
       is_solution mask digest = true -> is_solution mask' digest = true).
Proof.
  intros Hd. exists (2 ^ (32 - d) - 1).
  split; [apply get_difficulty_in_range; exact Hd|].
  assert (forall k digest, 0 <= k <= 32 ->
            (is_solution (2 ^ (32 - k) - 1) digest = true <->
             leading_bits digest < 2 ^ (32 - k))) as Hiff.
  { intros k digest Hk. unfold is_solution.
    rewrite hash_front_big_endian, Z.eqb_eq.
    apply land_mask_iff; [apply leading_bits_range|lia]. }
  split_and!.
  - intros digest. apply Hiff. exact Hd.
  - intros digest. rewrite Hiff by exact Hd.
    pose proof (leading_bits_range digest) as Hr.
    split.
    + intros Hlt j Hj.
      rewrite <- (Z.mod_small (leading_bits digest) (2 ^ (32 - d))) by lia.
      apply Z.mod_pow2_bits_high. lia.
    + intros Hbits.
      destruct (Z.lt_ge_cases (leading_bits digest) (2 ^ (32 - d)))
        as [Hlt | Hge]; [exact Hlt|].
      exfalso.
      assert (0 < leading_bits digest) as Hpos.
      { assert (0 < 2 ^ (32 - d)) by (apply Z.pow_pos_nonneg; lia). lia. }
      pose proof (Z.bit_log2 _ Hpos) as Hlog.
      assert (Z.log2 (leading_bits digest) < 32) as Hup
          by (apply Z.log2_lt_pow2; lia).
      assert (32 - d <= Z.log2 (leading_bits digest)) as Hlow
          by (apply Z.log2_le_pow2; lia).
      rewrite Hbits in Hlog by lia. discriminate Hlog.
  - intros d' mask' digest Hd' Hmask'.
    rewrite get_difficulty_in_range in Hmask' by lia.
    injection Hmask' as <-.
    rewrite !Hiff by lia. intros Hlt.
    assert (2 ^ (32 - d) <= 2 ^ (32 - d')) by (apply Z.pow_le_mono_r; lia).
    lia.
Qed.

(** Difficulty 24. *)
Lemma difficulty_means_leading_zeros_witness :
  exists mask,
    get_difficulty 24 = Some mask /\
    (forall digest,
       is_solution mask digest = true <->
       leading_bits digest < 2 ^ (32 - 24)) /\
    (forall digest,
       is_solution mask digest = true <->
       forall j, 32 - 24 <= j < 32 ->
                 Z.testbit (leading_bits digest) j = false) /\
    (forall d' mask' digest,
       0 <= d' <= 24 -> get_difficulty d' = Some mask' ->
       is_solution mask digest = true -> is_solution mask' digest = true).
Proof. apply (difficulty_means_leading_zeros 24). lia. Defined.

(** ** The text of a nonce *)

(** X5.  [sprintf] with [%llu] writes between 1 and 20 digits and the NUL,
    so it stays inside [buf[21]], whatever the nonce; the largest nonce
    takes all 21 bytes. *)
Theorem nonce_digits_fit stale (n : Z) :
  (1 <= length (fmt_llu n) <= 20)%nat /\
  length (sprintf_llu (fresh stale 21) n) = 21%nat /\
  strlen (sprintf_llu (fresh stale 21) n) = length (fmt_llu n) /\
  length (fmt_llu UINT64_MAX) = 20%nat.
Proof.
  destruct (fmt_llu_spec n) as (ds & Heq & Hdig & Hne & _ & _ & Hlen).
  destruct (sprintf_llu_buf stale n) as (rest & Hbuf & Hfit).
  split_and!.
  - rewrite Heq. destruct ds; [contradiction|simpl; lia].
  - rewrite Heq. exact Hlen.
  - exact Hfit.
  - rewrite Hbuf. apply strlen_app_nul. rewrite Heq.
    apply digits_not_nul, Hdig.
  - reflexivity.
Qed.

Lemma nonce_text stale block n :
  Forall (fun b => b <> 0) block ->
  c_str (tmp_str stale block n) = block ++ fmt_llu n.
Proof.
  intros Hblock.
  destruct (fmt_llu_spec n) as (ds & Heq & Hdig & _).
  destruct (tmp_str_spec stale block n Hblock) as (rest & Htmp & _).
  rewrite Htmp. apply c_str_app_nul.
  apply Forall_app. split; [exact Hblock|].
  rewrite Heq. apply digits_not_nul, Hdig.
Qed.

(** X6.  Two nonces that differ as 64-bit values give different texts to
    hash, whatever the buffers held before; so no two nonces of a run
    below the wrap are hashed as the same text. *)
Theorem nonce_texts_differ stale stale' (block : list Z) (n1 n2 : Z) :
  Forall (fun b => b <> 0) block ->
  uint64 n1 <> uint64 n2 ->
  c_str (tmp_str stale block n1) <> c_str (tmp_str stale' block n2).
Proof.
  intros Hblock Hne Heq. apply Hne.
  rewrite !nonce_text in Heq by exact Hblock.
  apply app_inv_head in Heq.
  destruct (fmt_llu_spec n1) as (d1 & H1 & _ & _ & _ & Hv1 & _).
  destruct (fmt_llu_spec n2) as (d2 & H2 & _ & _ & _ & Hv2 & _).
  congruence.
Qed.

(** The nonces 119 and 120 for the block "Hello". *)
Lemma nonce_texts_differ_witness :
  c_str (tmp_str stale_aa hello 119) <>
  c_str (tmp_str (fun _ => 7) hello 120).
Proof.
  apply (nonce_texts_differ stale_aa (fun _ => 7) hello 119 120).
  - unfold hello. repeat (constructor; [lia|]). constructor.
  - vm_compute. discriminate.
Defined.

(** ** Difficulties below 0 *)

Lemma get_difficulty_loop_overruns n : forall i mask,
  0 <= i <= 32 -> 32 < i + Z.of_nat n ->
  get_difficulty_loop n i mask = None.
Proof.
  induction n as [|n IH]; intros i mask Hi Hn; [lia|].
  simpl get_difficulty_loop.
  destruct (Z.eq_dec i 32) as [->|Hne]; [reflexivity|].
  rewrite shl_int_in_range by lia. apply IH; lia.
Qed.

Lemma get_difficulty_below_zero d : d < 0 -> get_difficulty d = None.
Proof.
  intros Hd. unfold get_difficulty. apply get_difficulty_loop_overruns; lia.
Qed.

Lemma get_difficulty_from_zero d :
  0 <= d -> exists mask, get_difficulty d = Some mask /\ 0 <= mask < 2 ^ 32.
Proof.
  intros Hd. destruct (Z.le_gt_cases d 32) as [Hle | Hgt].
  - exists (2 ^ (32 - d) - 1).
    split; [apply get_difficulty_in_range; lia|].
    assert (0 < 2 ^ (32 - d)) by (apply Z.pow_pos_nonneg; lia).
    assert (2 ^ (32 - d) <= 2 ^ 32) by (apply Z.pow_le_mono_r; lia).
    lia.
  - exists 0. split; [|lia]. unfold get_difficulty.
    replace (Z.to_nat (32 - d)) with O by lia. reflexivity.
Qed.

(** X7.  For a negative difficulty the loop of [get_difficulty] goes on
    to [i = 32] and shifts [1 << 32], for which C defines no result: only
    a difficulty of 0 or more gives a mask. *)
Theorem get_difficulty_negative (d : Z) :
  (d < 0 -> get_difficulty d = None /\ shl_int 1 32 = None) /\
  (0 <= d -> exists mask, get_difficulty d = Some mask /\ 0 <= mask < 2 ^ 32).
Proof.
  split.
  - intros Hd. split; [apply get_difficulty_below_zero, Hd|reflexivity].
  - apply get_difficulty_from_zero.
Qed.

(** ** The start of [main] *)

(** X8.  [main] prints the usage exactly when it does not get three
    arguments.  With three, a negative difficulty runs into the undefined
    shift before the block data is looked at; otherwise empty block data
    is the error, and in every other case the threads are started: as
    many as asked for when that is 1 or more, else 5, so never none. *)
Theorem main_start_cases (argc threads_arg difficulty_arg : Z)
    (argv3 : list Z) :
  (main_start argc threads_arg difficulty_arg argv3 = Usage <->
   argc <> 4) /\
  (main_start argc threads_arg difficulty_arg argv3 = UndefinedShift <->
   argc = 4 /\ difficulty_arg < 0) /\
  (main_start argc threads_arg difficulty_arg argv3 = EmptyBlockData <->
   argc = 4 /\ 0 <= difficulty_arg /\ strlen argv3 = O) /\
  (forall num_threads mask,
     main_start argc threads_arg difficulty_arg argv3 =
       Started num_threads mask ->
     (1 <= num_threads)%nat /\
     (1 <= threads_arg -> Z.of_nat num_threads = threads_arg) /\
     (threads_arg < 1 -> num_threads = 5%nat) /\
     get_difficulty difficulty_arg = Some mask /\
     (0 < strlen argv3)%nat /\
     length (threads (init num_threads)) = num_threads).
Proof.
  unfold main_start.
  assert (c_str argv3 = [] <-> strlen argv3 = O) as Hempty.
  { unfold c_str. destruct argv3 as [|b rest]; simpl; [tauto|].
    destruct (b =? 0); simpl; split; intros; congruence. }
  destruct (Z.eqb_spec argc 4) as [Hargc | Hargc]; simpl.
  2:{ split_and!; try (split; [discriminate|intros; lia]).
      - tauto.
      - discriminate. }
  destruct (Z.lt_ge_cases difficulty_arg 0) as [Hneg | Hpos].
  - rewrite (get_difficulty_below_zero difficulty_arg Hneg).
    split_and!; try (split; [discriminate|intros; lia]).
    + tauto.
    + discriminate.
  - destruct (get_difficulty_from_zero difficulty_arg ltac:(lia))
      as (mask & -> & _).
    destruct (c_str argv3) as [|b rest] eqn:Hstr.
    + split_and!; try (split; [discriminate|intros; lia]).
      * split; [intros _|reflexivity]. split_and!; [lia|lia|tauto].
      * discriminate.
    + assert (strlen argv3 <> O) as Hlen.
      { intros H0. apply Hempty in H0. discriminate H0. }
      split_and!; try (split; [discriminate|intros; lia]).
      intros n' mask' Hs. injection Hs as <- <-.
      simpl. rewrite length_map, length_seq.
      destruct (Z.ltb_spec threads_arg 1); split_and!; auto; lia.
Qed.

(** ** The dots of the progress display *)

Lemma div_succ c M :
  0 <= c -> 1 < M ->
  (c + 1) / M = c / M + (if (c + 1) mod M =? 0 then 1 else 0).
Proof.
  intros Hc HM.
  pose proof (Z.div_mod c M ltac:(lia)) as Hd.
  pose proof (Z.mod_pos_bound c M ltac:(lia)) as Hr.
  destruct (Z.eq_dec (c mod M) (M - 1)) as [Hlast | Hnot].
  - assert (c + 1 = (c / M + 1) * M) as Heq by lia.
    rewrite Heq at 2. rewrite Z.mod_mul by lia. simpl.
    rewrite Heq at 1. rewrite Z.div_mul by lia. reflexivity.
  - assert ((c + 1) mod M = c mod M + 1) as Hmod.
    { symmetry. apply (Z.mod_unique_pos _ _ (c / M)); lia. }
    assert ((c + 1) / M = c / M) as Hdiv.
    { symmetry. apply (Z.div_unique_pos _ _ _ (c mod M + 1)); lia. }
    rewrite Hmod, Hdiv.
    destruct (Z.eqb_spec (c mod M + 1) 0); lia.
Qed.

Lemma fill_dots_spec n : forall c,
  0 <= c -> c + Z.of_nat n < 2 ^ 64 ->
  fill_dots n c = (c + Z.of_nat n) / 1000000 - c / 1000000.
Proof.
  induction n as [|n IH]; intros c Hc Hn.
  - simpl. rewrite Z.add_0_r. lia.
  - cbn [fill_dots]. rewrite uint64_small by lia.
    rewrite IH by lia.
    replace (c + 1 + Z.of_nat n) with (c + Z.of_nat (S n)) by lia.
    rewrite (div_succ c 1000000) by lia.
    destruct ((c + 1) mod 1000000 =? 0); lia.
Qed.

Lemma dots_upto_spec g :
  120 * Z.of_nat g < 2 ^ 64 ->
  dots_upto g = 120 * Z.of_nat g / 1000000.
Proof.
  induction g as [|g IH]; intros Hg; [reflexivity|].
  cbn [dots_upto]. change (Z.of_nat NONCES_PER_TASK) with 120.
  rewrite IH by lia.
  rewrite uint64_small by lia.
  rewrite fill_dots_spec by (change (Z.of_nat NONCES_PER_TASK) with 120; lia).
  change (Z.of_nat NONCES_PER_TASK) with 120.
  replace (120 * Z.of_nat g + 120) with (120 * Z.of_nat (S g)) by lia.
  lia.
Qed.

(** X19.  As long as [current_nonce] has not wrapped, the dots that
    [main] has printed when it has filled [g] tasks are one for every
    full million of the 120 g nonces handed out, and no task adds more
    than one dot. *)
Theorem progress_dots (g : nat) :
  120 * Z.of_nat g < 2 ^ 64 ->
  dots_upto g = 120 * Z.of_nat g / 1000000 /\
  (forall k,
     (k < g)%nat ->
     0 <= fill_dots NONCES_PER_TASK (uint64 (120 * Z.of_nat k)) <= 1).
Proof.
  intros Hg. split; [apply dots_upto_spec, Hg|].
  intros k Hk. rewrite uint64_small by lia.
  rewrite fill_dots_spec by (change (Z.of_nat NONCES_PER_TASK) with 120; lia).
  change (Z.of_nat NONCES_PER_TASK) with 120.
  assert ((120 * Z.of_nat k + 120) / 1000000 <
          120 * Z.of_nat k / 1000000 + 2) as Hup.
  { apply Z.div_lt_upper_bound; [lia|].
    pose proof (Z.div_mod (120 * Z.of_nat k) 1000000 ltac:(lia)) as H1.
    pose proof (Z.mod_pos_bound (120 * Z.of_nat k) 1000000 ltac:(lia)) as H2.
    lia. }
  assert (120 * Z.of_nat k / 1000000 <= (120 * Z.of_nat k + 120) / 1000000)
    by (apply Z.div_le_mono; lia).
  lia.
Qed.

(** The first 8334 tasks hand out 1000080 nonces. *)
Lemma progress_dots_witness :
  120 * Z.of_nat (Z.to_nat 8334) / 1000000 = 1 /\
  dots_upto (Z.to_nat 8334) = 120 * Z.of_nat (Z.to_nat 8334) / 1000000 /\
  (forall k,
     (k < Z.to_nat 8334)%nat ->
     0 <= fill_dots NONCES_PER_TASK (uint64 (120 * Z.of_nat k)) <= 1).
Proof.
  split; [reflexivity|].
  apply (progress_dots (Z.to_nat 8334)). rewrite Z2Nat.id; lia.
Defined.

(** ** The mutex and the slot *)

Lemma held_by_miner_true id mutex :
  held_by_miner id mutex = true <-> mutex = Some (Miner id).
Proof.
  unfold held_by_miner. destruct mutex as [[|id']|]; try (split; discriminate).
  rewrite Nat.eqb_eq. split; intros H; [subst; reflexivity|congruence].
Qed.

Lemma held_by_main_true mutex :
  held_by_main mutex = true <-> mutex = Some Main.
Proof.
  unfold held_by_main. destruct mutex as [[|id']|]; split; congruence.
Qed.

Section Discipline.

Variable sha1sum : list Z -> list Z.
Variable stale : nat -> Z.
Variable block : list Z.
Variable mask : Z.

Local Abbreviation step := (step sha1sum stale block mask).
Local Abbreviation exec := (exec sha1sum stale block mask).
Local Abbreviation trace := (trace sha1sum stale block mask).
Local Abbreviation reachable := (reachable sha1sum stale block mask).
Local Abbreviation solves := (solves sha1sum stale block mask).
Local Abbreviation invariant := (invariant sha1sum stale block mask).

Ltac rewrite_pc_in H :=
  repeat match goal with
    | E : at_pc ?m = _ |- _ =>
        match type of H with context [at_pc m] => rewrite E in H end
    end.

Ltac use_discipline H :=
  destruct H as [Dmain Dmine Downer Dtake Dfault Dbreak Did Dfound Djoined
                   Daccount].

Lemma loop_guard n tr s :
  invariant n tr s -> (current_nonce s <? UINT64_MAX) = true.
Proof.
  intros H. rewrite (inv_nonce _ _ _ _ _ _ _ H).
  apply (uint64_task_below_max (Z.of_nat (length (generated tr)))).
Qed.

Lemma step_dis_main n tr s t :
  invariant n tr s -> discipline tr s ->
  main_holds (main_at (fst (step t s))) =
  held_by_main (task_mutex (fst (step t s))).
Proof.
  intros Hinv H. pose proof (loop_guard n tr s Hinv) as Hguard.
  use_discipline H.
  destruct t as [|id].
  - step_cases; simpl in Dmain; try congruence; try reflexivity;
      exact Dmain.
  - step_cases; simpl in Dmain; try congruence; try reflexivity;
      try exact Dmain;
      specialize (Dmine _ _ Heqo); rewrite_pc_in Dmine; simpl in Dmine;
      symmetry in Dmine; apply held_by_miner_true in Dmine;
      rewrite Dmine in Dmain; exact Dmain.
Qed.

Ltac eqb_cases :=
  repeat match goal with
    | H : context [(?a =? ?b)%nat] |- _ => destruct (Nat.eqb_spec a b)
    | |- context [(?a =? ?b)%nat] => destruct (Nat.eqb_spec a b)
    end.

Lemma step_dis_mine n tr s t :
  invariant n tr s -> discipline tr s ->
  forall id m,
    threads (fst (step t s)) !! id = Some m ->
    mine_holds (at_pc m) = held_by_miner id (task_mutex (fst (step t s))).
Proof.
  intros Hinv H. use_discipline H. intros id' m'.
  destruct t as [|id].
  - step_cases; intros Hm'; specialize (Dmine _ _ Hm'); simpl in *;
      try exact Dmine; try congruence;
      destruct (task_mutex s) as [[|]|]; simpl in *; congruence.
  - step_cases; try (apply Dmine);
      pose proof (Dmine _ _ Heqo) as Dself; rewrite_pc_in Dself;
      intros Hm'; apply lookup_set_miner in Hm';
      destruct Hm' as [[-> ->] | [Hne Hm']];
      try specialize (Dmine _ _ Hm');
      simpl in *; rewrite ?Nat.eqb_refl; try reflexivity; try congruence;
      try (destruct (task_mutex s) as [[|]|]; simpl in *;
           eqb_cases; congruence).
Qed.

Lemma step_dis_owner n tr s t :
  invariant n tr s -> discipline tr s ->
  forall id,
    task_mutex (fst (step t s)) = Some (Miner id) ->
    (id < length (threads (fst (step t s))))%nat.
Proof.
  intros Hinv H. use_discipline H. intros id'.
  destruct t as [|id]; step_cases; rewrite ?length_insert; intros Hmx;
    try discriminate; try (apply Downer; congruence);
    simplify_eq; eapply lookup_lt_Some; eauto.
Qed.

Lemma step_dis_take n tr s t :
  invariant n tr s -> discipline tr s ->
  forall id m,
    threads (fst (step t s)) !! id = Some m ->
    at_pc m = WTake \/
    (at_pc m = WTest /\ solution_found (fst (step t s)) = false) ->
    task_pointer (fst (step t s)) <> None.
Proof.
  intros Hinv H. use_discipline H. intros id' m'.
  destruct t as [|id].
  - step_cases; intros Hm' Hpc; try discriminate;
      apply (Dtake _ _ Hm'); rewrite_known; exact Hpc.
  - step_cases; try (apply Dtake);
      pose proof (Dmine _ _ Heqo) as Dself; rewrite_pc_in Dself;
      intros Hm'; apply lookup_set_miner in Hm';
      destruct Hm' as [[-> ->] | [Hne Hm']]; simpl; intros Hpc;
      try (destruct Hpc as [Hpc | [Hpc Hflag]]; discriminate);
      first
        [ eapply Dtake; [exact Hm'|];
          destruct Hpc as [Hpc | [Hpc Hflag]];
          [left; exact Hpc | right; split; [exact Hpc | congruence]]
        | eapply Dtake; [exact Heqo|]; right; split; congruence
        | destruct Hpc as [Hpc | [_ Hflag]]; [discriminate Hpc|];
          rewrite Hflag, andb_true_r in *;
          match goal with
          | E : bool_decide _ = false |- _ =>
              apply bool_decide_eq_false in E; exact E
          end
        | exfalso; specialize (Dmine _ _ Hm');
          assert (mine_holds (at_pc m') = true) as Hin
              by (destruct Hpc as [Hpc | [Hpc _]]; rewrite Hpc; reflexivity);
          rewrite Hin in Dmine; symmetry in Dmine, Dself;
          apply held_by_miner_true in Dmine;
          apply held_by_miner_true in Dself; congruence ].
Qed.

Lemma step_dis_fault n tr s t :
  invariant n tr s -> discipline tr s ->
  forall id m,
    threads (fst (step t s)) !! id = Some m -> at_pc m <> WFault.
Proof.
  intros Hinv H. use_discipline H. intros id' m'.
  destruct t as [|id].
  - step_cases; apply Dfault.
  - step_cases; try (apply Dfault);
      intros Hm'; apply lookup_set_miner in Hm';
      destruct Hm' as [[-> ->] | [Hne Hm']]; simpl;
      try discriminate; try (eapply Dfault; exact Hm').
    exfalso. eapply Dtake; [exact Heqo|left; assumption|reflexivity].
Qed.

Lemma step_dis_break n tr s t :
  invariant n tr s -> discipline tr s ->
  main_past_loop (main_at (fst (step t s))) = true ->
  solution_found (fst (step t s)) = true.
Proof.
  intros Hinv H. pose proof (loop_guard n tr s Hinv) as Hguard.
  use_discipline H.
  destruct t as [|id]; step_cases; simpl in *; auto; congruence.
Qed.

Lemma step_dis_id n tr s t :
  invariant n tr s -> discipline tr s ->
  forall id m,
    threads (fst (step t s)) !! id = Some m -> thread_id (info m) = id.
Proof.
  intros Hinv H. use_discipline H. intros id' m'.
  destruct t as [|id]; step_cases; try (apply Did);
    intros Hm'; apply lookup_set_miner in Hm';
    destruct Hm' as [[-> ->] | [Hne Hm']]; simpl; eauto.
Qed.

Lemma returned_stays id m s :
  threads s !! id = Some m -> at_pc m = WReturn ->
  step (Miner id) s = (s, []).
Proof. intros Hm Hpc. unfold_step. rewrite Hm, Hpc. reflexivity. Qed.

Lemma solved_returned n tr s id m :
  invariant n tr s -> threads s !! id = Some m ->
  has_solution (info m) = true -> at_pc m = WReturn.
Proof.
  intros Hinv Hm Hsol.
  pose proof (inv_solution _ _ _ _ _ _ _ Hinv id m Hm) as H.
  rewrite Hsol in H. tauto.
Qed.

Lemma step_dis_found n tr s t :
  invariant n tr s -> discipline tr s ->
  solution_found (fst (step t s)) = true ->
  exists id m,
    threads (fst (step t s)) !! id = Some m /\ has_solution (info m) = true.
Proof.
  intros Hinv H. use_discipline H.
  destruct t as [|id].
  - assert (threads (fst (step Main s)) = threads s) as ->
        by (step_cases; reflexivity).
    assert (solution_found (fst (step Main s)) = solution_found s) as ->
        by (step_cases; reflexivity).
    exact Dfound.
  - destruct (threads s !! id) as [m|] eqn:Hm.
    2:{ unfold_step. rewrite Hm. exact Dfound. }
    destruct (has_solution (info m)) eqn:Hsol.
    { rewrite (returned_stays id m s Hm (solved_returned _ _ _ _ _ Hinv Hm Hsol)).
      intros _. exists id, m. auto. }
    assert (id < length (threads s))%nat as Hlen
        by (eapply lookup_lt_Some; exact Hm).
    assert (forall m', has_solution (info m') = has_solution (info m) ->
              solution_found s = true ->
              exists id0 m0,
                <[id := m']> (threads s) !! id0 = Some m0 /\
                has_solution (info m0) = true) as Hkeep.
    { intros m' _ Hflag. destruct (Dfound Hflag) as (id0 & m0 & Hm0 & Hs0).
      exists id0, m0. split; [|exact Hs0].
      rewrite list_lookup_insert_ne; [exact Hm0|].
      intros ->. congruence. }
    step_cases; try exact Dfound; intros Hflag;
      try (apply Hkeep; [reflexivity|congruence]).
    exists id. eexists. split; [apply list_lookup_insert_eq, Hlen|].
    apply has_solution_sha1tostring.
Qed.

Lemma step_dis_joined n tr s t :
  invariant n tr s -> discipline tr s ->
  main_at (fst (step t s)) = MDone ->
  forall id m,
    threads (fst (step t s)) !! id = Some m -> at_pc m = WReturn.
Proof.
  intros Hinv H. use_discipline H.
  destruct t as [|id].
  - step_cases; try discriminate; try (intros; eapply Djoined; eauto; fail).
    intros _ id' m' Hm'. rewrite forallb_forall in Heqb.
    assert (returned m' = true) as Hret.
    { apply Heqb. apply list_elem_of_In.
      apply list_elem_of_lookup. eauto. }
    unfold returned in Hret. destruct (at_pc m'); congruence.
  - intros Hdone.
    assert (main_at (fst (step (Miner id) s)) = main_at s) as Hsame
        by (step_cases; reflexivity).
    rewrite Hsame in Hdone.
    destruct (threads s !! id) as [m|] eqn:Hm.
    + rewrite (returned_stays id m s Hm (Djoined Hdone id m Hm)).
      apply Djoined, Hdone.
    + unfold_step. rewrite Hm. apply Djoined, Hdone.
Qed.

Lemma step_dis_account n tr s t :
  invariant n tr s -> discipline tr s ->
  Z.of_nat (length (taken (tr ++ snd (step t s)))) =
  Z.of_nat (length (counted (tr ++ snd (step t s))))
  + sum_with hashing (threads (fst (step t s)))
  + sum_with solved (threads (fst (step t s))).
Proof.
  intros Hinv H. use_discipline H.
  destruct t as [|id].
  - step_cases; autorewrite with events; exact Daccount.
  - destruct (threads s !! id) as [m|] eqn:Hm.
    2:{ unfold_step. rewrite Hm. simpl. autorewrite with events.
        exact Daccount. }
    destruct (has_solution (info m)) eqn:Hsol.
    { rewrite (returned_stays id m s Hm (solved_returned _ _ _ _ _ Hinv Hm Hsol)).
      simpl. autorewrite with events. exact Daccount. }
    step_cases; autorewrite with events; simpl; try exact Daccount;
      rewrite !(sum_with_insert _ _ _ _ _ Heqo);
      set (H1 := sum_with hashing (threads s)) in *;
      set (H2 := sum_with solved (threads s)) in *;
      unfold hashing, solved; simpl; rewrite_pc;
      rewrite ?has_solution_sha1tostring;
      unfold has_solution in *; simpl; rewrite ?Hsol;
      rewrite ?length_app; simpl; lia.
Qed.

Lemma discipline_step n tr s t :
  invariant n tr s -> discipline tr s ->
  discipline (tr ++ snd (step t s)) (fst (step t s)).
Proof.
  intros Hinv H. split.
  - apply (step_dis_main n tr s t Hinv H).
  - apply (step_dis_mine n tr s t Hinv H).
  - apply (step_dis_owner n tr s t Hinv H).
  - apply (step_dis_take n tr s t Hinv H).
  - apply (step_dis_fault n tr s t Hinv H).
  - apply (step_dis_break n tr s t Hinv H).
  - apply (step_dis_id n tr s t Hinv H).
  - apply (step_dis_found n tr s t Hinv H).
  - apply (step_dis_joined n tr s t Hinv H).
  - apply (step_dis_account n tr s t Hinv H).
Qed.

Lemma discipline_init n : discipline [] (init n).
Proof.
  split; simpl; try reflexivity; try discriminate.
  - intros id m Hm. apply lookup_init in Hm. subst m. reflexivity.
  - intros id m Hm [Hpc | [Hpc _]]; apply lookup_init in Hm; subst m;
      discriminate.
  - intros id m Hm. apply lookup_init in Hm. subst m. discriminate.
  - intros id m Hm. apply lookup_init in Hm. subst m. reflexivity.
  - rewrite !sum_with_zero; [reflexivity| |];
      intros id m Hm; apply lookup_init in Hm; subst m; reflexivity.
Qed.

Lemma reachable_discipline n tr s : reachable n tr s -> discipline tr s.
Proof.
  induction 1 as [|tr s t Hr IH]; [apply discipline_init|].
  apply (discipline_step n); [|exact IH].
  apply reachable_invariant, Hr.
Qed.

Lemma run_discipline n sched :
  discipline (trace sched (init n)) (exec sched (init n)).
Proof. apply (reachable_discipline n), reachable_exec. Qed.

(** *** Where tasks and nonces come from *)

Ltac use_provenance H := destruct H as [Ptask Pcounted Pnonce Ptotal].

Lemma taken_by_elem id tr b : b ∈ taken_by id tr -> b ∈ taken tr.
Proof.
  unfold taken_by, taken.
  induction tr as [|e tr IH]; simpl; [auto|].
  destruct e as [| |id' b'| |]; simpl; auto.
  destruct (decide (id' = id)); simpl.
  - rewrite !elem_of_cons. tauto.
  - intros H. apply list_elem_of_further, IH, H.
Qed.

Lemma uint64_add_r a b : uint64 (a + uint64 b) = uint64 (a + b).
Proof. unfold uint64. apply Zplus_mod_idemp_r. Qed.

Lemma step_prov_task n tr s t :
  invariant n tr s -> provenance tr s ->
  forall id m b i,
    threads (fst (step t s)) !! id = Some m -> at_pc m = WHash b i ->
    b ∈ taken_by id (tr ++ snd (step t s)).
Proof.
  intros Hinv H. use_provenance H. intros id' m' b i.
  rewrite taken_by_app, elem_of_app.
  destruct t as [|id].
  - step_cases; intros Hm' Hpc; left; eapply Ptask; eauto.
  - step_cases; try (intros Hm' Hpc; left; eapply Ptask; eauto; fail);
      intros Hm'; apply lookup_set_miner in Hm';
      destruct Hm' as [[-> ->] | [Hne Hm']]; simpl; intros Hpc;
      try discriminate Hpc; try (left; eapply Ptask; eauto; fail).
    + right. injection Hpc as -> _. unfold taken_by. simpl.
      rewrite decide_True by reflexivity. apply list_elem_of_here.
    + left. injection Hpc as -> _. eapply Ptask; eauto.
Qed.

Lemma step_prov_counted n tr s t :
  invariant n tr s -> provenance tr s ->
  forall id b,
    b ∈ counted_by id (tr ++ snd (step t s)) ->
    b ∈ taken_by id (tr ++ snd (step t s)).
Proof.
  intros Hinv H. use_provenance H. intros id' b.
  rewrite taken_by_app, counted_by_app, !elem_of_app.
  destruct t as [|id]; step_cases;
    (intros [Hc | Hc]; [left; apply Pcounted, Hc|]);
    try (inversion Hc; fail).
  unfold counted_by in Hc. simpl in Hc.
  destruct (decide (id = id')) as [->|Hne]; [|inversion Hc].
  apply list_elem_of_singleton in Hc. subst b. left.
  eapply Ptask; eauto.
Qed.

Lemma step_prov_nonce n tr s t :
  invariant n tr s -> provenance tr s ->
  forall id m,
    threads (fst (step t s)) !! id = Some m ->
    has_solution (info m) = true ->
    exists b, b ∈ taken_by id (tr ++ snd (step t s)) /\ nonce (info m) ∈ b.
Proof.
  intros Hinv H. use_provenance H. intros id' m'.
  assert (forall ev m0, threads s !! id' = Some m0 ->
            has_solution (info m0) = true ->
            exists b, b ∈ taken_by id' (tr ++ ev) /\
                      nonce (info m0) ∈ b) as Hold.
  { intros ev m0 Hm0 Hs0. destruct (Pnonce _ _ Hm0 Hs0) as (b & Hb & Hn).
    exists b. split; [|exact Hn].
    rewrite taken_by_app, elem_of_app. left. exact Hb. }
  destruct t as [|id].
  - assert (threads (fst (step Main s)) = threads s) as ->
        by (step_cases; reflexivity).
    apply Hold.
  - destruct (threads s !! id) as [m|] eqn:Hm.
    2:{ unfold_step. rewrite Hm. apply Hold. }
    destruct (has_solution (info m)) eqn:Hsol.
    { rewrite (returned_stays id m s Hm
                 (solved_returned _ _ _ _ _ Hinv Hm Hsol)).
      apply Hold. }
    pose proof (inv_hash _ _ _ _ _ _ _ Hinv id m) as Hhash.
    step_cases; try (apply Hold);
      intros Hm'; apply lookup_set_miner in Hm';
      destruct Hm' as [[-> ->] | [Hne Hm']]; simpl;
      try (apply Hold; exact Hm');
      try (unfold has_solution in *; simpl; intros Hs; congruence).
    intros _.
    match goal with
    | Hpc : at_pc m = WHash ?b ?i |- _ =>
        exists b; split;
        [ rewrite taken_by_app, elem_of_app; left; eapply Ptask; eauto
        | destruct (Hhash b i eq_refl Hpc) as (Hlen & _ & _);
          apply list_elem_of_In, nth_In; rewrite Hlen;
          apply Nat.ltb_lt; assumption ]
    end.
Qed.

Lemma step_prov_total n tr s t :
  invariant n tr s -> provenance tr s ->
  uint64 (sum_inversions (threads (fst (step t s)))) =
  uint64 (Z.of_nat NONCES_PER_TASK *
          Z.of_nat (length (counted (tr ++ snd (step t s))))).
Proof.
  intros Hinv H. use_provenance H. unfold sum_inversions in *.
  destruct t as [|id].
  - step_cases; autorewrite with events; exact Ptotal.
  - step_cases; autorewrite with events; simpl; try exact Ptotal;
      rewrite (sum_with_insert _ _ _ _ _ Heqo); simpl;
      try (rewrite <- Ptotal; f_equal; lia).
    rewrite length_app. simpl.
    set (S0 := sum_with (fun m => num_inversions (info m)) (threads s)) in *.
    rewrite uint64_add_r.
    replace (S0 - num_inversions (info m) +
             (num_inversions (info m) + Z.of_nat NONCES_PER_TASK))
      with (S0 + Z.of_nat NONCES_PER_TASK) by lia.
    rewrite <- uint64_add_l, Ptotal, uint64_add_l. f_equal. lia.
Qed.

Lemma provenance_step n tr s t :
  invariant n tr s -> provenance tr s ->
  provenance (tr ++ snd (step t s)) (fst (step t s)).
Proof.
  intros Hinv H. split.
  - apply (step_prov_task n tr s t Hinv H).
  - apply (step_prov_counted n tr s t Hinv H).
  - apply (step_prov_nonce n tr s t Hinv H).
  - apply (step_prov_total n tr s t Hinv H).
Qed.

Lemma provenance_init n : provenance [] (init n).
Proof.
  split.
  - intros id m b i Hm. apply lookup_init in Hm. subst m. discriminate.
  - intros id b Hb. inversion Hb.
  - intros id m Hm. apply lookup_init in Hm. subst m. discriminate.
  - unfold sum_inversions. rewrite sum_with_zero; [reflexivity|].
    intros id m Hm. apply lookup_init in Hm. subst m. reflexivity.
Qed.

Lemma reachable_provenance n tr s : reachable n tr s -> provenance tr s.
Proof.
  induction 1 as [|tr s t Hr IH]; [apply provenance_init|].
  apply (provenance_step n); [|exact IH].
  apply reachable_invariant, Hr.
Qed.

Lemma run_provenance n sched :
  provenance (trace sched (init n)) (exec sched (init n)).
Proof. apply (reachable_provenance n), reachable_exec. Qed.

(** *** What [print_results] reads *)

Lemma NoDup_consecutive from n : NoDup (consecutive from n).
Proof.
  unfold consecutive. apply NoDup_fmap_2; [|apply NoDup_seq].
  intros a b H. lia.
Qed.

Lemma sum_with_solved ts : sum_with solved ts = Z.of_nat (length (winners ts)).
Proof.
  unfold winners. induction ts as [|x ts IH]; [reflexivity|].
  simpl. unfold solved at 1. rewrite filter_cons.
  destruct (decide (has_solution (info x) = true)) as [Hs|Hs];
    [|apply not_true_is_false in Hs]; rewrite Hs, IH; cbn [length]; lia.
Qed.

Lemma winners_lookup ts :
  winners ts <> [] <->
  exists id m, ts !! id = Some m /\ has_solution (info m) = true.
Proof.
  unfold winners. induction ts as [|x ts IH]; simpl.
  - split; [intros H; exfalso; apply H; reflexivity|]. intros (id & m & H & _). destruct id; discriminate H.
  - rewrite filter_cons.
    destruct (decide (has_solution (info x) = true)) as [Hs|Hs].
    + split; [|discriminate]. intros _. exists O, x. auto.
    + rewrite IH. split; intros (id & m & H1 & H2).
      * exists (S id), m. auto.
      * destruct id as [|id]; simpl in H1; [congruence|].
        exists id, m. auto.
Qed.

Lemma fold_inversions_wrapped ts : forall a,
  uint64 a = a ->
  uint64 (fold_left (fun total m => uint64 (total + num_inversions (info m)))
                    ts a) =
  fold_left (fun total m => uint64 (total + num_inversions (info m))) ts a.
Proof.
  induction ts as [|x ts IH]; intros a Ha; simpl; [exact Ha|].
  apply IH, uint64_idem.
Qed.

Lemma fold_inversions ts : forall a,
  uint64 (fold_left (fun total m => uint64 (total + num_inversions (info m)))
                    ts a) =
  uint64 (a + sum_inversions ts).
Proof.
  unfold sum_inversions.
  induction ts as [|x ts IH]; intros a; simpl; [f_equal; lia|].
  rewrite IH, uint64_add_l. f_equal. lia.
Qed.

Lemma total_inversions_wrapped ts :
  total_inversions ts = uint64 (sum_inversions ts).
Proof.
  unfold total_inversions.
  rewrite <- fold_inversions_wrapped by reflexivity.
  apply fold_inversions.
Qed.

Lemma taken_prefix n tr s :
  invariant n tr s -> taken tr = tasks_upto (length (taken tr)).
Proof.
  intros H. pose proof (published_prefix _ _ _ _ n tr s H) as Hpub.
  rewrite (inv_slot _ _ _ _ _ _ _ H) in Hpub at 1.
  eapply tasks_upto_prefix. symmetry. exact Hpub.
Qed.

Lemma frame_step t s id :
  t <> Miner id -> threads (fst (step t s)) !! id = threads s !! id.
Proof.
  intros Ht. destruct t as [|id']; step_cases; try reflexivity;
    apply list_lookup_insert_ne; congruence.
Qed.

(** X9.  The mutex of [main] and [mine].  In every run [main] is between
    its lock and its unlock exactly when [task_mutex] is held by [main],
    and a [mine] thread is between its lock and its unlock exactly when
    [task_mutex] is held by that thread; so while one thread is there,
    neither [main] nor any other thread is. *)
Theorem mutex_excludes n sched :
  (main_holds (main_at (exec sched (init n))) = true <->
   task_mutex (exec sched (init n)) = Some Main) /\
  (forall id m,
     threads (exec sched (init n)) !! id = Some m ->
     (mine_holds (at_pc m) = true <->
      task_mutex (exec sched (init n)) = Some (Miner id))) /\
  (forall id m,
     threads (exec sched (init n)) !! id = Some m ->
     mine_holds (at_pc m) = true ->
     main_holds (main_at (exec sched (init n))) = false /\
     forall id' m',
       threads (exec sched (init n)) !! id' = Some m' ->
       mine_holds (at_pc m') = true -> id' = id).
Proof.
  pose proof (run_discipline n sched) as H. use_discipline H.
  split_and!.
  - rewrite Dmain. apply held_by_main_true.
  - intros id m Hm. rewrite (Dmine id m Hm). apply held_by_miner_true.
  - intros id m Hm Hin. rewrite (Dmine id m Hm) in Hin.
    apply held_by_miner_true in Hin. split.
    + rewrite Dmain, Hin. reflexivity.
    + intros id' m' Hm' Hin'. rewrite (Dmine id' m' Hm') in Hin'.
      apply held_by_miner_true in Hin'. congruence.
Qed.

(** X10.  A [mine] thread never reads through a null [task_pointer] and
    never reads past its task: whenever a thread is at the copy of line
    233, [task_pointer] holds a task of 120 nonces, and whenever it is in
    the for loop, its task has 120 nonces and [i] is at most 120. *)
Theorem task_never_null n sched id m :
  threads (exec sched (init n)) !! id = Some m ->
  at_pc m <> WFault /\
  (at_pc m = WTake ->
   exists task,
     task_pointer (exec sched (init n)) = Some task /\
     length task = NONCES_PER_TASK) /\
  (forall b i,
     at_pc m = WHash b i ->
     length b = NONCES_PER_TASK /\ (i <= NONCES_PER_TASK)%nat).
Proof.
  intros Hm.
  pose proof (run_invariant sha1sum stale block mask n sched) as Hinv.
  pose proof (run_discipline n sched) as H. use_discipline H.
  split_and!.
  - apply (Dfault id m Hm).
  - intros Hpc.
    destruct (task_pointer (exec sched (init n))) as [task|] eqn:Hslot.
    2:{ exfalso. apply (Dtake id m Hm); [left; exact Hpc|reflexivity]. }
    exists task. split; [reflexivity|].
    pose proof (published_prefix _ _ _ _ n _ _ Hinv) as Hpub.
    apply (tasks_upto_elem
             (length (published (trace sched (init n))))).
    rewrite <- Hpub, (inv_slot _ _ _ _ _ _ _ Hinv), Hslot.
    apply elem_of_app. right. apply list_elem_of_here.
  - intros b i Hpc.
    destruct (inv_hash _ _ _ _ _ _ _ Hinv id m b i Hm Hpc) as (? & ? & _).
    auto.
Qed.

(** X11.  The slot hands every task to one thread, in the order of
    publishing: the tasks taken so far are the first tasks that [main]
    generated, in order, and the published tasks are those and the one
    that waits in [task_pointer].  Below task number 153722867280912930
    the nonces taken are 0, 1, 2, ... with none given out twice. *)
Theorem tasks_taken_in_order n sched :
  taken (trace sched (init n)) =
    tasks_upto (length (taken (trace sched (init n)))) /\
  published (trace sched (init n)) =
    taken (trace sched (init n)) ++
    option_list (task_pointer (exec sched (init n))) /\
  (Z.of_nat (length (taken (trace sched (init n)))) <= WRAPPING_TASK ->
   concat (taken (trace sched (init n))) =
     consecutive 0 (120 * length (taken (trace sched (init n)))) /\
   NoDup (concat (taken (trace sched (init n))))).
Proof.
  pose proof (run_invariant sha1sum stale block mask n sched) as Hinv.
  pose proof (taken_prefix n _ _ Hinv) as Htaken.
  split_and!.
  - exact Htaken.
  - apply (inv_slot _ _ _ _ _ _ _ Hinv).
  - intros Hk.
    assert (concat (taken (trace sched (init n))) =
            consecutive 0 (120 * length (taken (trace sched (init n)))))
      as Hcat.
    { rewrite Htaken at 1. apply concat_tasks_upto.
      unfold WRAPPING_TASK in Hk. change (Z.of_nat NONCES_PER_TASK) with 120.
      lia. }
    split; [exact Hcat|]. rewrite Hcat. apply NoDup_consecutive.
Qed.

(** X12.  The condition of the while loop of line 103 holds whenever it
    is tested, so [main] leaves its loop only through the break of line
    124: whenever [main] is past the loop, [solution_found] is set, and
    at the unlock of line 146 [main] holds the mutex. *)
Theorem loop_left_on_solution n sched :
  (current_nonce (exec sched (init n)) <? UINT64_MAX) = true /\
  (main_past_loop (main_at (exec sched (init n))) = true ->
   solution_found (exec sched (init n)) = true) /\
  (main_at (exec sched (init n)) = MBreak ->
   task_mutex (exec sched (init n)) = Some Main).
Proof.
  pose proof (run_invariant sha1sum stale block mask n sched) as Hinv.
  pose proof (run_discipline n sched) as H. use_discipline H.
  split_and!.
  - apply (loop_guard n _ _ Hinv).
  - exact Dbreak.
  - intros Hpc. apply held_by_main_true. rewrite <- Dmain, Hpc. reflexivity.
Qed.

(** X13.  [solution_found] is set exactly when [print_results] has a
    solution to print: some record has a non-empty [solution_hash].  When
    [main] is past the joins of line 152, every thread has returned and
    at least one record carries a solution. *)
Theorem flag_iff_winner n sched :
  (solution_found (exec sched (init n)) = true <->
   winners (threads (exec sched (init n))) <> []) /\
  (main_at (exec sched (init n)) = MDone ->
   (forall id m,
      threads (exec sched (init n)) !! id = Some m -> at_pc m = WReturn) /\
   winners (threads (exec sched (init n))) <> []).
Proof.
  pose proof (run_invariant sha1sum stale block mask n sched) as Hinv.
  pose proof (run_discipline n sched) as H. use_discipline H.
  assert (solution_found (exec sched (init n)) = true <->
          winners (threads (exec sched (init n))) <> []) as Hiff.
  { rewrite winners_lookup. split; [exact Dfound|].
    intros (id & m & Hm & Hsol).
    pose proof (inv_solution _ _ _ _ _ _ _ Hinv id m Hm) as Hs.
    rewrite Hsol in Hs. tauto. }
  split; [exact Hiff|]. intros Hdone. split; [apply Djoined, Hdone|].
  apply Hiff, Dbreak. rewrite Hdone. reflexivity.
Qed.

(** X14.  Every task that was taken out of the slot is accounted for: it
    was counted by the thread that finished it, or a thread is in its for
    loop with it, or it is the task in which a thread found its solution.
    When [main] is past the joins, the tasks taken are the tasks counted
    and one for each record with a solution. *)
Theorem tasks_accounted n sched :
  Z.of_nat (length (taken (trace sched (init n)))) =
    Z.of_nat (length (counted (trace sched (init n))))
    + sum_with hashing (threads (exec sched (init n)))
    + Z.of_nat (length (winners (threads (exec sched (init n))))) /\
  (main_at (exec sched (init n)) = MDone ->
   length (taken (trace sched (init n))) =
   (length (counted (trace sched (init n)))
    + length (winners (threads (exec sched (init n)))))%nat).
Proof.
  pose proof (run_discipline n sched) as H. use_discipline H.
  rewrite sum_with_solved in Daccount.
  split; [exact Daccount|]. intros Hdone.
  rewrite sum_with_zero in Daccount; [lia|].
  intros id m Hm. unfold hashing. rewrite (Djoined Hdone id m Hm).
  reflexivity.
Qed.

(** X15.  A thread works on its own record only.  A step of [main]
    changes no record and leaves [solution_found] as it is; a step of a
    [mine] thread changes no record but its own and leaves
    [current_nonce] as it is; no step changes the number of records or a
    [thread_id], and in every run the record at index [id] has
    [thread_id] equal to [id]. *)
Theorem threads_isolated n sched t s :
  length (threads (fst (step t s))) = length (threads s) /\
  (forall id,
     t <> Miner id -> threads (fst (step t s)) !! id = threads s !! id) /\
  (t = Main -> solution_found (fst (step t s)) = solution_found s) /\
  (t <> Main -> current_nonce (fst (step t s)) = current_nonce s) /\
  (forall id m m',
     threads s !! id = Some m -> threads (fst (step t s)) !! id = Some m' ->
     thread_id (info m') = thread_id (info m)) /\
  (forall id m,
     threads (exec sched (init n)) !! id = Some m -> thread_id (info m) = id).
Proof.
  split_and!.
  - destruct t as [|id]; step_cases; rewrite ?length_insert; reflexivity.
  - intros id. apply frame_step.
  - intros ->. step_cases; reflexivity.
  - intros Ht. destruct t as [|id]; [congruence|]. step_cases; reflexivity.
  - intros id m m' Hm.
    destruct t as [|id']; step_cases; try congruence;
      intros Hm'; apply lookup_set_miner in Hm';
      destruct Hm' as [[-> ->] | [Hne Hm']]; simpl; congruence.
  - apply (dis_id _ _ (run_discipline n sched)).
Qed.

(** X16.  What a thread that has returned leaves in its record stays:
    from then on no step of any thread changes the record, so
    [print_results] prints the nonce and the digest as the thread wrote
    them when it found the solution. *)
Theorem results_are_final sched s id m :
  threads s !! id = Some m -> at_pc m = WReturn ->
  threads (exec sched s) !! id = Some m.
Proof.
  revert s. induction sched as [|t sched IH]; intros s Hm Hpc; [exact Hm|].
  simpl. apply IH; [|exact Hpc].
  destruct t as [|id']; [rewrite frame_step by discriminate; exact Hm|].
  destruct (decide (id' = id)) as [->|Hne].
  - rewrite (returned_stays id m s Hm Hpc). exact Hm.
  - rewrite frame_step by congruence. exact Hm.
Qed.

(** X17.  A thread counts and reports only what it took out of the slot:
    a task that a thread has counted is a task that this thread took, and
    a nonce in a record with a solution is one of the 120 nonces of a
    task that this thread took, which is one of the tasks that [main]
    generated. *)
Theorem reported_nonce_was_taken n sched :
  (forall id b,
     b ∈ counted_by id (trace sched (init n)) ->
     b ∈ taken_by id (trace sched (init n))) /\
  (forall id m,
     threads (exec sched (init n)) !! id = Some m ->
     has_solution (info m) = true ->
     exists k r,
       (k < length (taken (trace sched (init n))))%nat /\
       (r < NONCES_PER_TASK)%nat /\
       nth_task (Z.of_nat k) ∈ taken_by id (trace sched (init n)) /\
       nonce (info m) = uint64 (120 * Z.of_nat k + Z.of_nat r)).
Proof.
  pose proof (run_invariant sha1sum stale block mask n sched) as Hinv.
  pose proof (run_provenance n sched) as H. use_provenance H.
  split; [exact Pcounted|].
  intros id m Hm Hsol. destruct (Pnonce id m Hm Hsol) as (b & Hb & Hn).
  pose proof (taken_by_elem _ _ _ Hb) as Hin.
  apply list_elem_of_lookup in Hin. destruct Hin as (k & Hk).
  pose proof (lookup_lt_Some _ _ _ Hk) as Hlt.
  rewrite (taken_prefix n _ _ Hinv) in Hk.
  apply lookup_tasks_upto in Hk. subst b.
  apply list_elem_of_lookup in Hn. destruct Hn as (r & Hr).
  pose proof (lookup_lt_Some _ _ _ Hr) as Hrlt.
  rewrite length_nth_task in Hrlt.
  rewrite (lookup_nth_task _ _ Hrlt) in Hr. injection Hr as Hr.
  exists k, r. split_and!; auto.
Qed.

(** X18.  The total that [print_results] adds up is 120 for every task
    that was counted, in 64 bits; when [main] is past the joins that is
    120 for every task taken but those in which a solution was found. *)
Theorem total_is_counted n sched :
  total_inversions (threads (exec sched (init n))) =
    uint64 (120 * Z.of_nat (length (counted (trace sched (init n))))) /\
  (main_at (exec sched (init n)) = MDone ->
   total_inversions (threads (exec sched (init n))) =
     uint64 (120 * (Z.of_nat (length (taken (trace sched (init n))))
                    - Z.of_nat (length (winners
                                          (threads (exec sched (init n)))))))).
Proof.
  pose proof (run_provenance n sched) as H. use_provenance H.
  pose proof (run_discipline n sched) as H. use_discipline H.
  rewrite sum_with_solved in Daccount.
  rewrite total_inversions_wrapped, Ptotal.
  split; [reflexivity|]. intros Hdone.
  rewrite sum_with_zero in Daccount.
  - f_equal. change (Z.of_nat NONCES_PER_TASK) with 120. lia.
  - intros id m Hm. unfold hashing. rewrite (Djoined Hdone id m Hm).
    reflexivity.
Qed.

End Discipline.

(** [main] has stored the task 0..119 and thread 0 is at the copy of line
    233. *)
Lemma task_never_null_witness :
  threads (exec byte_sum_digest stale_aa hello mask_all
                (stage_sched ++ repeat (Miner O) 3) (init 2)) !! O =
    Some {| info := new_thread_info O; at_pc := WTake |} /\
  exists task,
    task_pointer (exec byte_sum_digest stale_aa hello mask_all
                       (stage_sched ++ repeat (Miner O) 3) (init 2)) =
      Some task /\
    length task = NONCES_PER_TASK.
Proof.
  assert (threads (exec byte_sum_digest stale_aa hello mask_all
                        (stage_sched ++ repeat (Miner O) 3) (init 2)) !! O =
          Some {| info := new_thread_info O; at_pc := WTake |}) as Hm
      by reflexivity.
  split; [exact Hm|].
  apply (task_never_null byte_sum_digest stale_aa hello mask_all _ _ _ _ Hm).
  reflexivity.
Defined.

(** Thread 0 has reported nonce 0 and returned; [main] and thread 1 go
    on, and thread 0 is scheduled again. *)
Lemma results_are_final_witness :
  threads (exec byte_sum_digest stale_aa hello mask_all first_solver_sched
                (init 2)) !! O =
    Some (record_solution byte_sum_digest stale_aa hello 0
            {| info := new_thread_info O; at_pc := WLock |}) /\
  threads (exec byte_sum_digest stale_aa hello mask_all
                [Miner O; Main; Miner 1%nat; Main; Main; Miner 1%nat;
                 Miner O]
                (exec byte_sum_digest stale_aa hello mask_all
                      first_solver_sched (init 2))) !! O =
    Some (record_solution byte_sum_digest stale_aa hello 0
            {| info := new_thread_info O; at_pc := WLock |}).
Proof.
  assert (threads (exec byte_sum_digest stale_aa hello mask_all
                        first_solver_sched (init 2)) !! O =
          Some (record_solution byte_sum_digest stale_aa hello 0
                  {| info := new_thread_info O; at_pc := WLock |})) as Hm
      by (vm_compute; reflexivity).
  split; [exact Hm|].
  apply results_are_final; [exact Hm|reflexivity].
Defined.
